(** * Size hints of the ImageView widget

    A shallow embedding of [toga/widgets/imageview.py]: the function
    [rehint_imageview], which turns an optional image, a style and a scale
    factor into a width hint, a height hint and an aspect ratio, and the
    [enabled] property of the [ImageView] widget.

    Python numbers are modelled as the interpreter has them: [int] is an
    unbounded integer ([Z]); [float] is an IEEE 754 binary64 number, here
    the [spec_float] of the Standard Library with [prec = 53] and
    [emax = 1024], so that every rounding, overflow and division by zero of
    the source is visible in the model.  Exceptions are values of an error
    monad. *)

From Stdlib Require Import ZArith NArith Bool Lia QArith Qpower Lqa List.
From Stdlib Require Import Floats.SpecFloat.
From ExtLib Require Import Structures.Monad.
From ExtLib Require Import Data.Monads.EitherMonad.
Import MonadNotation.

Local Open Scope Z_scope.
Local Open Scope monad_scope.

(** ** Exceptions *)

(** The exceptions the arithmetic of [rehint_imageview] can raise. *)
Inductive pyerr : Type :=
| ZeroDivisionError
| OverflowError
| ValueError.

(** A computation that returns a value ([inr]) or raises ([inl]). *)
Definition py (A : Type) : Type := (pyerr + A)%type.

#[global] Instance Monad_py : Monad py := Monad_either pyerr.

Definition Return {A : Type} (a : A) : py A := inr a.

Definition Raise {A : Type} (e : pyerr) : py A := inl e.

(** ** Python floats: IEEE 754 binary64 *)

Module Float.

Definition prec : Z := 53.

Definition emax : Z := 1024.

Definition float : Type := spec_float.

Definition is_zero (x : float) : bool :=
  match x with
  | S754_zero _ => true
  | _ => false
  end.

Definition is_finite (x : float) : bool :=
  match x with
  | S754_zero _ | S754_finite _ _ _ => true
  | _ => false
  end.

(** [float(n)] for an [int] [n] (CPython's [PyLong_AsDouble]): the nearest
    double, ties to even; [OverflowError] when that is out of range. *)
Definition of_int (n : Z) : py float :=
  match binary_normalize prec emax n 0 false with
  | S754_infinity _ => Raise OverflowError
  | x => Return x
  end.

(** [a / b] for two [int]s (CPython's [long_true_divide]): the exact
    quotient rounded once to the nearest double, ties to even.  A zero
    divisor raises [ZeroDivisionError], a quotient out of range raises
    [OverflowError], and a quotient too small underflows to a zero. *)
Definition int_truediv (a b : Z) : py float :=
  if b =? 0 then Raise ZeroDivisionError
  else if a =? 0 then Return (S754_zero (b <? 0))
  else
    let negate := xorb (a <? 0) (b <? 0) in
    let '(q, e, l) := SFdiv_core_binary prec emax (Z.abs a) 0 (Z.abs b) 0 in
    match binary_round_aux prec emax negate q e l with
    | S754_infinity _ => Raise OverflowError
    | x => Return x
    end.

(** [x / y] for two [float]s (CPython's [float_div]): a zero divisor
    raises, anything else is the IEEE quotient (which may be an infinity or
    a NaN). *)
Definition truediv (x y : float) : py float :=
  if is_zero y then Raise ZeroDivisionError
  else Return (SFdiv prec emax x y).

(** [x * y] for two [float]s: the IEEE product; never raises. *)
Definition mul (x y : float) : float := SFmul prec emax x y.

(** [n / y] for an [int] [n] and a [float] [y]: [n] is converted first. *)
Definition int_div_float (n : Z) (y : float) : py float :=
  x <- of_int n ;;
  truediv x y.

(** [n * y] for an [int] [n] and a [float] [y]. *)
Definition int_mul_float (n : Z) (y : float) : py float :=
  x <- of_int n ;;
  ret (mul x y).

(** [int(x)] for a [float] [x] (CPython's [float___trunc___impl]):
    truncation towards zero; NaN raises [ValueError] and an infinity
    [OverflowError]. *)
Definition to_int (x : float) : py Z :=
  match x with
  | S754_nan => Raise ValueError
  | S754_infinity _ => Raise OverflowError
  | S754_zero _ => Return 0
  | S754_finite s m e => Return (cond_Zopp s (Z.shiftl (Zpos m) e))
  end.

(** The mathematical floor of a finite float (0 on the others); see
    [floor_spec]. *)
Definition floor (x : float) : Z :=
  match x with
  | S754_finite false m e => Z.shiftl (Zpos m) e
  | S754_finite true m e => Z.shiftl (Zneg m) e
  | _ => 0
  end.

(** The rational value of a finite float (0 on the others). *)
Definition F2Q (x : float) : Q :=
  match x with
  | S754_finite s m e => (inject_Z (cond_Zopp s (Zpos m)) * 2 ^ e)%Q
  | _ => 0%Q
  end.

(** The relative error of one rounding to a normal double is at most
    [2^-52] (one unit in the last place). *)
Definition unit_roundoff : Q := 1 # (2 ^ 52).

End Float.

Import Float.

(** ** Data model *)

(** [toga.Image], as far as [rehint_imageview] reads it: the pixel
    dimensions of the native image, which are never negative.  An image
    object is always true in [if image:]; only [None] is false. *)
Module Image.

Record t : Type := { width : N; height : N }.

End Image.

(** The style of the widget ([toga.style.Pack]), as far as the function
    reads it.  [width] and [height] are an [int] or the constant [NONE]
    (here [None]); [flex] is the truth value of [style.flex]. *)
Module Style.

Record t : Type := { width : option Z; height : option Z; flex : bool }.

End Style.

(** A size hint: a Python [int], or [at_least(n)] of [travertino.size]. *)
Inductive hint : Type :=
| Int (n : Z)
| at_least (n : Z).

(** ** [rehint_imageview] *)

(** [int(n)] for an [int] [n]: style dimensions, image dimensions and the
    scale are [int]s, so [int(style.width * scale)] converts nothing. *)
Definition int_of_int (n : Z) : Z := n.

Definition rehint_imageview (image : option Image.t) (style : Style.t)
    (scale : Z) : py (hint * hint * option float) :=
  match image with
  | Some image =>
      match Style.width style, Style.height style with
      | Some style_width, Some style_height =>
          (* Explicit width and height: no float is computed. *)
          let width := int_of_int (style_width * scale) in
          let height := int_of_int (style_height * scale) in
          ret (Int width, Int height, None)
      | Some style_width, None =>
          (* Explicit width, implicit height. *)
          aspect_ratio <-
            int_truediv (Z.of_N (Image.width image))
                        (Z.of_N (Image.height image)) ;;
          let width := int_of_int (style_width * scale) in
          q <- int_div_float (style_width * scale) aspect_ratio ;;
          height <- to_int q ;;
          let height := if Style.flex style then at_least 0 else Int height in
          ret (Int width, height, Some aspect_ratio)
      | None, Some style_height =>
          (* Explicit height, implicit width. *)
          aspect_ratio <-
            int_truediv (Z.of_N (Image.width image))
                        (Z.of_N (Image.height image)) ;;
          p <- int_mul_float (style_height * scale) aspect_ratio ;;
          width <- to_int p ;;
          let height := int_of_int (style_height * scale) in
          let width := if Style.flex style then at_least 0 else Int width in
          ret (width, Int height, Some aspect_ratio)
      | None, None =>
          (* The image's actual size. *)
          aspect_ratio <-
            int_truediv (Z.of_N (Image.width image))
                        (Z.of_N (Image.height image)) ;;
          let width := int_of_int (Z.of_N (Image.width image) * scale) in
          let height := int_of_int (Z.of_N (Image.height image) * scale) in
          let width := if Style.flex style then at_least 0 else Int width in
          let height := if Style.flex style then at_least 0 else Int height in
          ret (width, height, Some aspect_ratio)
      end
  | None =>
      (* No image: the hinted size is 0. *)
      ret (Int 0, Int 0, None)
  end.

(** ** The [enabled] property of [ImageView] *)

Module ImageView.

Section Widget.

(** The attributes inherited from [Widget], and the Python values. *)
Variable Base : Type.
Variable object : Type.

(** An [ImageView] object: its own attribute [_image] and what it
    inherits. *)
Record t : Type := { _image : option Image.t; base : Base }.

(** The getter of [enabled]: [return True]. *)
Definition enabled (self : t) : bool := true.

(** The setter of [enabled]: [pass]. *)
Definition set_enabled (self : t) (value : object) : t := self.

(** The getter of [image]. *)
Definition image (self : t) : option Image.t := _image self.

End Widget.

Arguments _image {Base}.
Arguments base {Base}.
Arguments enabled {Base}.
Arguments set_enabled {Base object}.
Arguments image {Base}.

End ImageView.

(** ** Inputs and bounds used in the statements *)

(** The double 2.0. *)
Definition two : float := S754_finite false 4503599627370496 (-51).

Definition image_200x100 : Image.t :=
  {| Image.width := 200; Image.height := 100 |}.

(** An image too wide for its aspect ratio to be a double. *)
Definition image_wide : Image.t :=
  {| Image.width := 2 ^ 1024; Image.height := 1 |}.

(** An image so tall that its aspect ratio underflows to 0.0. *)
Definition image_tall : Image.t :=
  {| Image.width := 1; Image.height := 2 ^ 1080 |}.

Definition no_dims (flex : bool) : Style.t :=
  {| Style.width := None; Style.height := None; Style.flex := flex |}.

Definition only_width (w : Z) (flex : bool) : Style.t :=
  {| Style.width := Some w; Style.height := None; Style.flex := flex |}.

Definition only_height (h : Z) (flex : bool) : Style.t :=
  {| Style.width := None; Style.height := Some h; Style.flex := flex |}.

Definition both_dims (w h : Z) (flex : bool) : Style.t :=
  {| Style.width := Some w; Style.height := Some h; Style.flex := flex |}.

(** Magnitudes below this limit keep every float of [rehint_imageview]
    in the normal range: the ratio of two of them, and the product or the
    quotient of a third with that ratio, neither overflow nor underflow.
    The limit is sufficient, not tight. *)
Definition magnitude_limit : Z := 2 ^ 500.

(** Below this limit [style.width * scale * image.height] stays under
    [2^50], which leaves the two roundings of the implicit height too
    small to move it by a unit. *)
Definition pixel_limit : Z := 2 ^ 25.

(** ** Definitions for the further properties *)

(** The double 1.0. *)
Definition one : float := S754_finite false 4503599627370496 (-52).

(** A float whose sign bit is clear (a NaN has none). *)
Definition not_negative (x : float) : Prop :=
  match x with
  | S754_zero s | S754_finite s _ _ | S754_infinity s => s = false
  | S754_nan => True
  end.

(** The number a hint carries. *)
Definition hint_value (h : hint) : Z :=
  match h with
  | Int n => n
  | at_least n => n
  end.

(** ** The [image] property of [ImageView], its constructor and
    [as_image] *)

Module ImageProperty.

Import ListNotations.

Section Backend.

(** Image content that is neither a [toga.Image] nor [None] (a path,
    bytes, a PIL image, ...), what [toga.Image(content)] raises on content
    it cannot read, and that constructor. *)
Variable Source : Type.
Variable Error : Type.
Variable Image_new : Source -> Error + Image.t.

(** The formats of [as_format], its results, and [Image.as_format]. *)
Variable Format : Type.
Variable Formatted : Type.
Variable as_format : Image.t -> Format -> Formatted.

(** The three cases the setter tells apart: [isinstance(image,
    toga.Image)], [image is None], anything else. *)
Inductive content : Type :=
| image_object (img : Image.t)
| no_image
| other (src : Source).

(** What the widget asks of its base class and of its backend:
    [super().__init__(...)], [self._impl.set_image(...)] and
    [self.refresh()].  They are recorded, not interpreted. *)
Inductive call : Type :=
| widget_init
| impl_set_image (img : option Image.t)
| refresh.

(** An [ImageView] with the calls it has made so far, oldest first. *)
Definition view : Type := ImageView.t (list call).

(** The setter of [image].  When [toga.Image(image)] raises, nothing has
    been assigned or called yet. *)
Definition set_image (self : view) (image : content) : Error + view :=
  let converted :=
    match image with
    | image_object img => inr (Some img)
    | no_image => inr None
    | other src =>
        match Image_new src with
        | inl e => inl e
        | inr img => inr (Some img)
        end
    end in
  match converted with
  | inl e => inl e
  | inr new_image =>
      inr {| ImageView._image := new_image;
             ImageView.base :=
               ImageView.base self ++ [impl_set_image new_image; refresh] |}
  end.

(** [__init__]: prime the attribute, initialise the base class, assign
    the image. *)
Definition init (image : content) : Error + view :=
  let self := {| ImageView._image := None; ImageView.base := [widget_init] |} in
  set_image self image.

(** [as_image]: [self.image.as_format(format)]; [None] has no such
    attribute. *)
Inductive as_image_result : Type :=
| AttributeError
| formatted (result : Formatted).

Definition as_image (self : view) (format : Format) : as_image_result :=
  match ImageView.image self with
  | None => AttributeError
  | Some img => formatted (as_format img format)
  end.

(** A caller that assigns one content after another and carries on after
    an assignment that raised. *)
Definition assign_all (self : view) (images : list content) : view :=
  fold_left (fun self image =>
               match set_image self image with
               | inr self' => self'
               | inl _ => self
               end) images self.

(** The image the backend was last handed, if it was handed one. *)
Definition displayed (self : view) : option (option Image.t) :=
  fold_left (fun shown c =>
               match c with
               | impl_set_image img => Some img
               | _ => shown
               end) (ImageView.base self) None.

End Backend.

Arguments image_object {Source}.
Arguments no_image {Source}.
Arguments other {Source}.
Arguments set_image {Source Error}.
Arguments init {Source Error}.
Arguments assign_all {Source Error}.
Arguments AttributeError {Formatted}.
Arguments formatted {Formatted}.
Arguments as_image {Format Formatted}.

End ImageProperty.

(** ** Proof automation *)

(** Settles the sign and zero tests of [int_truediv] on operands known to
    be positive. *)
Ltac positive_operands :=
  repeat first
    [ rewrite (proj2 (Z.eqb_neq _ 0)) by lia
    | rewrite (proj2 (Z.ltb_ge _ 0)) by lia
    | rewrite Z.abs_eq by lia ].

(** * Facts about binary64 arithmetic *)

(** ** Powers of two and binary digits *)

Section Digits.

Lemma pow2_pos (k : Z) : 0 <= k -> 0 < 2 ^ k.
Proof. intros Hk. apply Z.pow_pos_nonneg; lia. Qed.

Lemma pow2_split (a b : Z) : 0 <= a -> 0 <= b -> 2 ^ (a + b) = 2 ^ a * 2 ^ b.
Proof. intros Ha Hb. apply Z.pow_add_r; lia. Qed.

Lemma digits2_pos_size (p : positive) : digits2_pos p = Pos.size p.
Proof. induction p; simpl; congruence. Qed.

Lemma Zdigits2_log2 (m : Z) : 0 < m -> Zdigits2 m = Z.log2 m + 1.
Proof.
  destruct m as [|p|p]; try lia. intros _. simpl.
  rewrite digits2_pos_size.
  destruct p; simpl; lia.
Qed.

Lemma Zdigits2_nonneg (m : Z) : 0 <= Zdigits2 m.
Proof. destruct m; simpl; lia. Qed.

Lemma Zdigits2_pos (m : Z) : 0 < m -> 0 < Zdigits2 m.
Proof.
  intros Hm. rewrite (Zdigits2_log2 m Hm). pose proof (Z.log2_nonneg m). lia.
Qed.

Lemma Zdigits2_bounds (m : Z) :
  0 < m -> 2 ^ (Zdigits2 m - 1) <= m < 2 ^ Zdigits2 m.
Proof.
  intros Hm. rewrite (Zdigits2_log2 m Hm).
  replace (Z.log2 m + 1 - 1) with (Z.log2 m) by lia.
  replace (Z.log2 m + 1) with (Z.succ (Z.log2 m)) by lia.
  now apply Z.log2_spec.
Qed.

Lemma Zdigits2_lt_pow (m : Z) : 0 <= m -> m < 2 ^ Zdigits2 m.
Proof.
  intros Hm. destruct (Z.eq_dec m 0) as [->|Hne]; [simpl; lia|].
  apply Zdigits2_bounds. lia.
Qed.

Lemma Zdigits2_unique (m d : Z) :
  2 ^ (d - 1) <= m < 2 ^ d -> 0 < d -> Zdigits2 m = d.
Proof.
  intros Hm Hd.
  assert (0 < m) by (pose proof (pow2_pos (d - 1)); lia).
  rewrite (Zdigits2_log2 m) by assumption.
  rewrite (Z.log2_unique m (d - 1)); try lia.
  replace (Z.succ (d - 1)) with d by lia. lia.
Qed.

Lemma Zdigits2_le (m d : Z) : 0 <= d -> 0 <= m < 2 ^ d -> Zdigits2 m <= d.
Proof.
  intros Hd [Hm Hlt]. destruct (Z.eq_dec m 0) as [->|Hne]; [simpl; lia|].
  rewrite (Zdigits2_log2 m) by lia.
  assert (Z.log2 m < d) by (apply Z.log2_lt_pow2; lia). lia.
Qed.

Lemma Zdigits2_ge (m d : Z) : 0 < m -> 2 ^ (d - 1) <= m -> d <= Zdigits2 m.
Proof.
  intros Hm Hle. rewrite (Zdigits2_log2 m Hm).
  destruct (Z.le_gt_cases d 0) as [Hd|Hd].
  - pose proof (Z.log2_nonneg m). lia.
  - assert (d - 1 <= Z.log2 m) by (apply Z.log2_le_pow2; lia). lia.
Qed.

(** Digits after a right shift. *)
Lemma Zdigits2_shr (m k : Z) :
  0 <= m -> 0 <= k -> Zdigits2 (m / 2 ^ k) <= Z.max 0 (Zdigits2 m - k).
Proof.
  intros Hm Hk. pose proof (Zdigits2_lt_pow m Hm) as B.
  pose proof (Zdigits2_nonneg m) as N.
  pose proof (pow2_pos k Hk) as P.
  destruct (Z.le_gt_cases k (Zdigits2 m)) as [L|G].
  - apply Zdigits2_le; [lia|]. split; [apply Z.div_pos; lia|].
    replace (Z.max 0 (Zdigits2 m - k)) with (Zdigits2 m - k) by lia.
    apply Z.div_lt_upper_bound; [lia|].
    rewrite <- pow2_split by lia.
    replace (k + (Zdigits2 m - k)) with (Zdigits2 m) by lia. lia.
  - rewrite Z.div_small; [simpl; lia|]. split; [lia|].
    assert (2 ^ Zdigits2 m <= 2 ^ k) by (apply Z.pow_le_mono_r; lia). lia.
Qed.

(** Digits of a quotient. *)
Lemma Zdigits2_div (n b dn db : Z) :
  0 < b -> Zdigits2 b = db -> 2 ^ (dn - 1) <= n < 2 ^ dn -> db < dn ->
  2 ^ (dn - db - 1) <= n / b /\ dn - db <= Zdigits2 (n / b) <= dn - db + 1.
Proof.
  intros Hb Hdb Hn Hlt.
  pose proof (Zdigits2_bounds b Hb) as Bb. rewrite Hdb in Bb.
  pose proof (Zdigits2_pos b Hb) as Pb. rewrite Hdb in Pb.
  assert (E1 : 2 ^ (dn - 1) = 2 ^ (dn - db - 1) * 2 ^ db).
  { rewrite <- pow2_split by lia. f_equal. lia. }
  assert (E2 : 2 ^ dn = 2 ^ (dn - db + 1) * 2 ^ (db - 1)).
  { rewrite <- pow2_split by lia. f_equal. lia. }
  pose proof (pow2_pos (dn - db - 1) ltac:(lia)) as P1.
  pose proof (pow2_pos (db - 1) ltac:(lia)) as P2.
  assert (L : 2 ^ (dn - db - 1) <= n / b).
  { apply Z.div_le_lower_bound; nia. }
  assert (U : n / b < 2 ^ (dn - db + 1)).
  { apply Z.div_lt_upper_bound; nia. }
  split; [exact L|]. split.
  - apply Zdigits2_ge; [lia|]. assumption.
  - apply Zdigits2_le; lia.
Qed.

Lemma div_eucl_div (a b : Z) : Z.div_eucl a b = (a / b, a mod b).
Proof. unfold Z.div, Z.modulo. now destruct (Z.div_eucl a b). Qed.

Lemma Pos_iter_xO (d mx : positive) :
  Zpos (Pos.iter xO mx d) = Zpos mx * 2 ^ Zpos d.
Proof.
  induction d as [|d IH] using Pos.peano_ind.
  - simpl. lia.
  - rewrite Pos.iter_succ, Pos2Z.inj_xO, IH, Pos2Z.inj_succ.
    rewrite Z.pow_succ_r by lia. lia.
Qed.

End Digits.

(** ** Shifting and rounding a mantissa *)

Section Rounding.

Lemma fexp_eq (e : Z) : fexp prec emax e = Z.max (e - 53) (-1074).
Proof. reflexivity. Qed.

Lemma shr_1_m (mrs : shr_record) :
  0 <= shr_m mrs -> shr_m (shr_1 mrs) = shr_m mrs / 2.
Proof.
  destruct mrs as [m r s]. simpl. intros Hm.
  destruct m as [|p|p]; try lia; [reflexivity|].
  destruct p as [p|p|]; simpl.
  - rewrite Pos2Z.inj_xI. apply Z.div_unique with (r := 1); lia.
  - rewrite Pos2Z.inj_xO. apply Z.div_unique with (r := 0); lia.
  - reflexivity.
Qed.

Lemma shr_1_nonneg (mrs : shr_record) :
  0 <= shr_m mrs -> 0 <= shr_m (shr_1 mrs).
Proof.
  intros H. rewrite shr_1_m by assumption. apply Z.div_pos; lia.
Qed.

(** [p] one-bit shifts divide the mantissa by [2^p]. *)
Lemma iter_shr_1_m (p : positive) : forall mrs,
  0 <= shr_m mrs ->
  shr_m (iter_pos shr_1 p mrs) = shr_m mrs / 2 ^ Zpos p.
Proof.
  induction p as [p IH|p IH|]; intros mrs Hm; simpl iter_pos.
  - assert (H1 : 0 <= shr_m (shr_1 mrs)) by now apply shr_1_nonneg.
    assert (H2 : 0 <= shr_m (iter_pos shr_1 p (shr_1 mrs))).
    { rewrite IH by assumption. apply Z.div_pos; lia. }
    rewrite IH, IH, shr_1_m by assumption.
    rewrite !Z.div_div by lia. f_equal.
    rewrite Pos2Z.inj_xI, <- Z.pow_add_r, <- (Z.pow_1_r 2) at 1 by lia.
    rewrite <- Z.pow_add_r by lia. f_equal. lia.
  - assert (H2 : 0 <= shr_m (iter_pos shr_1 p mrs)).
    { rewrite IH by assumption. apply Z.div_pos; lia. }
    rewrite IH, IH by assumption.
    rewrite Z.div_div by lia. f_equal.
    rewrite Pos2Z.inj_xO, <- Z.pow_add_r by lia. f_equal. lia.
  - now rewrite shr_1_m.
Qed.

Lemma shr_record_of_loc_m (m : Z) (l : location) :
  shr_m (shr_record_of_loc m l) = m.
Proof. destruct l as [|[]]; reflexivity. Qed.

(** [shr_fexp] shifts the mantissa right by the number of digits it has
    beyond the format, and moves the exponent up by as much. *)
Lemma shr_fexp_spec (m e : Z) (l : location) :
  0 <= m ->
  let k := Z.max 0 (fexp prec emax (Zdigits2 m + e) - e) in
  shr_m (fst (shr_fexp prec emax m e l)) = m / 2 ^ k
  /\ snd (shr_fexp prec emax m e l) = e + k.
Proof.
  intros Hm k. unfold shr_fexp, shr. subst k.
  destruct (fexp prec emax (Zdigits2 m + e) - e) as [|p|p];
    simpl fst; simpl snd.
  - rewrite shr_record_of_loc_m. simpl. rewrite Z.div_1_r. lia.
  - rewrite iter_shr_1_m by (rewrite shr_record_of_loc_m; lia).
    rewrite shr_record_of_loc_m.
    replace (Z.max 0 (Z.pos p)) with (Z.pos p) by lia. lia.
  - rewrite shr_record_of_loc_m.
    replace (Z.max 0 (Z.neg p)) with 0 by lia. simpl. rewrite Z.div_1_r. lia.
Qed.

Lemma shr_fexp_id (m e : Z) (l : location) :
  Zdigits2 m = 53 -> -1074 <= e ->
  shr_fexp prec emax m e l = (shr_record_of_loc m l, e).
Proof.
  intros Hd He. unfold shr_fexp. rewrite Hd, fexp_eq.
  replace (Z.max (53 + e - 53) (-1074) - e) with 0 by lia. reflexivity.
Qed.

Lemma round_nearest_even_cases (m : Z) (l : location) :
  round_nearest_even m l = m \/ round_nearest_even m l = m + 1.
Proof.
  destruct l as [|[]]; simpl; auto. destruct (Z.even m); auto.
Qed.

(** The second half of [binary_round_aux]: a mantissa of 53 digits, or
    [2^53], at an exponent in range, is stored as it is, or as [2^52] one
    exponent up. *)
Lemma binary_round_aux_finish (m2 e1 : Z) :
  2 ^ 52 <= m2 <= 2 ^ 53 -> -1074 <= e1 <= 970 ->
  let '(mrs, e) := shr_fexp prec emax m2 e1 loc_Exact in
  exists m : positive,
    shr_m mrs = Zpos m /\ e <= 971
    /\ 2 ^ 52 <= Zpos m < 2 ^ 53
    /\ e1 <= e <= e1 + 1
    /\ Zpos m * 2 ^ (e - e1) = m2.
Proof.
  intros Hm He.
  pose proof (shr_fexp_spec m2 e1 loc_Exact) as S.
  destruct (shr_fexp prec emax m2 e1 loc_Exact) as [mrs e].
  simpl in S. destruct S as [Sm Se]; [lia|].
  destruct (Z.eq_dec m2 (2 ^ 53)) as [->|Hne].
  - replace (Zdigits2 (2 ^ 53)) with 54 in * by reflexivity.
    rewrite fexp_eq in *.
    replace (Z.max 0 (Z.max (54 + e1 - 53) (-1074) - e1)) with 1 in * by lia.
    exists (4503599627370496%positive). rewrite Sm, Se.
    replace (e1 + 1 - e1) with 1 by lia.
    repeat split; try lia; try reflexivity.
  - assert (Hd : Zdigits2 m2 = 53) by (apply Zdigits2_unique; lia).
    rewrite Hd, fexp_eq in *.
    replace (Z.max 0 (Z.max (53 + e1 - 53) (-1074) - e1)) with 0 in * by lia.
    rewrite Z.pow_0_r, Z.div_1_r in Sm.
    destruct m2 as [|m|m]; try lia.
    exists m. rewrite Sm, Se. replace (e1 + 0 - e1) with 0 by lia.
    repeat split; lia.
Qed.

(** Faithful rounding in the normal range: a positive mantissa [mx] of at
    least 53 digits is rounded to a 53-digit mantissa [m] at exponent [e]
    such that the interval from [mx] to [mx + 1] lies within one unit in
    the last place of [m]. *)
Lemma binary_round_aux_normal (sx : bool) (mx ex : Z) (lx : location) :
  0 < mx ->
  53 <= Zdigits2 mx ->
  -1074 <= ex + Zdigits2 mx - 53 <= 970 ->
  exists (m : positive) (e : Z),
    binary_round_aux prec emax sx mx ex lx = S754_finite sx m e
    /\ 2 ^ 52 <= Zpos m < 2 ^ 53
    /\ ex + Zdigits2 mx - 53 <= e <= ex + Zdigits2 mx - 52
    /\ (Zpos m - 1) * 2 ^ (e - ex) <= mx
    /\ mx + 1 <= (Zpos m + 1) * 2 ^ (e - ex).
Proof.
  intros Hmx Hd He. unfold binary_round_aux.
  pose proof (shr_fexp_spec mx ex lx) as S.
  destruct (shr_fexp prec emax mx ex lx) as [mrs' e'].
  simpl in S. destruct S as [Sm Se]; [lia|].
  rewrite fexp_eq in Sm, Se.
  set (d := Zdigits2 mx) in *.
  replace (Z.max 0 (Z.max (d + ex - 53) (-1074) - ex)) with (d - 53) in *
    by lia.
  pose proof (Zdigits2_bounds mx Hmx) as B. fold d in B.
  set (P := 2 ^ (d - 53)) in *.
  assert (HP : 0 < P) by (apply pow2_pos; lia).
  assert (E1 : 2 ^ (d - 1) = 2 ^ 52 * P).
  { unfold P. rewrite <- pow2_split by lia. f_equal. lia. }
  assert (E2 : 2 ^ d = 2 ^ 53 * P).
  { unfold P. rewrite <- pow2_split by lia. f_equal. lia. }
  pose proof (Z.div_mod mx P ltac:(lia)) as DM.
  pose proof (Z.mod_pos_bound mx P HP) as MB.
  set (m1 := mx / P) in *.
  assert (Hm1 : 2 ^ 52 <= m1 < 2 ^ 53) by nia.
  set (m2 := round_nearest_even (shr_m mrs') (loc_of_shr_record mrs')).
  assert (Hm2 : m2 = m1 \/ m2 = m1 + 1).
  { unfold m2. rewrite Sm. apply round_nearest_even_cases. }
  pose proof (binary_round_aux_finish m2 e' ltac:(lia) ltac:(lia)) as F.
  destruct (shr_fexp prec emax m2 e' loc_Exact) as [mrs'' e''].
  destruct F as (m & Fm & Fe & Fb & Fr & Fv).
  rewrite Fm. exists m, e''.
  replace (e'' <=? emax - prec) with true
    by (symmetry; apply Z.leb_le; unfold emax, prec; lia).
  split; [reflexivity|]. split; [assumption|]. split; [lia|].
  assert (HQ : 2 ^ (e'' - ex) = 2 ^ (e'' - e') * P).
  { unfold P. rewrite <- pow2_split by lia. f_equal. lia. }
  rewrite HQ.
  assert (1 <= 2 ^ (e'' - e')) by (pose proof (pow2_pos (e'' - e')); lia).
  split; nia.
Qed.

(** A 53-digit mantissa at an exponent in range, known exactly, is stored
    as it is. *)
Lemma binary_round_aux_exact (sx : bool) (m : positive) (ex : Z) :
  2 ^ 52 <= Zpos m < 2 ^ 53 -> -1074 <= ex <= 971 ->
  binary_round_aux prec emax sx (Zpos m) ex loc_Exact = S754_finite sx m ex.
Proof.
  intros Bm He. unfold binary_round_aux.
  rewrite shr_fexp_id by (try apply Zdigits2_unique; lia).
  cbn [shr_record_of_loc shr_m loc_of_shr_record round_nearest_even].
  rewrite shr_fexp_id by (try apply Zdigits2_unique; lia).
  cbn [shr_record_of_loc shr_m].
  replace (ex <=? emax - prec) with true
    by (symmetry; apply Z.leb_le; unfold emax, prec; lia).
  reflexivity.
Qed.

(** No overflow: a mantissa whose digits end below [2^1023] never rounds
    to an infinity, whatever happens at the other end of the range. *)
Lemma binary_round_aux_finite (sx : bool) (mx ex : Z) (lx : location) :
  0 <= mx -> ex <= 971 -> ex + Zdigits2 mx <= 1023 ->
  is_finite (binary_round_aux prec emax sx mx ex lx) = true.
Proof.
  intros Hmx Hex Hd. unfold binary_round_aux.
  pose proof (shr_fexp_spec mx ex lx Hmx) as S.
  destruct (shr_fexp prec emax mx ex lx) as [mrs' e'].
  simpl in S. destruct S as [Sm Se]. rewrite fexp_eq in Sm, Se.
  set (d := Zdigits2 mx) in *.
  set (k := Z.max 0 (Z.max (d + ex - 53) (-1074) - ex)) in *.
  set (m1 := mx / 2 ^ k) in *.
  assert (Hk : 0 <= k) by lia.
  assert (Hm1 : 0 <= m1) by (apply Z.div_pos; [lia|apply pow2_pos; lia]).
  pose proof (Zdigits2_shr mx k Hmx Hk) as D1. fold m1 d in D1.
  pose proof (Zdigits2_nonneg mx) as Nd. fold d in Nd.
  set (m2 := round_nearest_even (shr_m mrs') (loc_of_shr_record mrs')).
  assert (Hm2 : m2 = m1 \/ m2 = m1 + 1).
  { unfold m2. rewrite Sm. apply round_nearest_even_cases. }
  assert (D2 : Zdigits2 m2 <= Zdigits2 m1 + 1).
  { pose proof (Zdigits2_lt_pow m1 Hm1) as B1.
    pose proof (Zdigits2_nonneg m1) as N1.
    apply Zdigits2_le; [lia|]. rewrite Z.pow_add_r, Z.pow_1_r by lia. lia. }
  pose proof (shr_fexp_spec m2 e' loc_Exact ltac:(lia)) as S2.
  destruct (shr_fexp prec emax m2 e' loc_Exact) as [mrs'' e''].
  simpl in S2. destruct S2 as [Sm2 Se2]. rewrite fexp_eq in Sm2, Se2.
  assert (He'' : e'' <= 971) by lia.
  assert (Hm3 : 0 <= shr_m mrs'').
  { rewrite Sm2. apply Z.div_pos; [lia|apply pow2_pos; lia]. }
  destruct (shr_m mrs'') as [|m|m]; try lia; [reflexivity|].
  replace (e'' <=? emax - prec) with true
    by (symmetry; apply Z.leb_le; unfold emax, prec; lia).
  reflexivity.
Qed.

End Rounding.

(** ** The operations on operands in range *)

Section Operations.

Lemma shifted_dividend (a s : Z) :
  0 <= s ->
  match s with
  | 0 => a
  | Z.pos _ => Z.shiftl a s
  | Z.neg _ => 0
  end = a * 2 ^ s.
Proof.
  intros Hs. destruct s as [|p|p]; try lia.
  now rewrite Z.shiftl_mul_pow2 by lia.
Qed.

(** [a / b] on positive integers whose sizes differ by less than the
    exponent range: a normal double within one unit in the last place of
    the exact quotient. *)
Lemma int_truediv_normal (a b : Z) :
  0 < a -> 0 < b ->
  -1021 <= Zdigits2 a - Zdigits2 b <= 1022 ->
  exists (m : positive) (e s : Z),
    int_truediv a b = Return (S754_finite false m e)
    /\ 2 ^ 52 <= Zpos m < 2 ^ 53
    /\ Zdigits2 a - Zdigits2 b - 53 <= e <= Zdigits2 a - Zdigits2 b - 51
    /\ 0 <= s /\ 0 <= e + s
    /\ (Zpos m - 1) * 2 ^ (e + s) * b <= a * 2 ^ s
    /\ a * 2 ^ s < (Zpos m + 1) * 2 ^ (e + s) * b.
Proof.
  intros Ha Hb Hd. unfold int_truediv. positive_operands. simpl xorb.
  unfold SFdiv_core_binary. rewrite fexp_eq.
  set (da := Zdigits2 a) in *. set (db := Zdigits2 b) in *.
  rewrite !Z.add_0_r. replace (0 - 0) with 0 by lia.
  set (e' := Z.min (Z.max (da - db - 53) (-1074)) 0).
  set (s := 0 - e').
  assert (Hs : 0 <= s) by lia.
  rewrite (shifted_dividend a s Hs), div_eucl_div.
  pose proof (Zdigits2_bounds a Ha) as Ba. fold da in Ba.
  pose proof (Zdigits2_pos a Ha) as Pa. fold da in Pa.
  pose proof (Zdigits2_pos b Hb) as Pb. fold db in Pb.
  pose proof (pow2_pos s Hs) as HPs.
  set (n := a * 2 ^ s) in *.
  assert (Bn : 2 ^ (da + s - 1) <= n < 2 ^ (da + s)).
  { replace (da + s - 1) with (da - 1 + s) by lia.
    rewrite !pow2_split by lia. unfold n. nia. }
  destruct (Zdigits2_div n b (da + s) db Hb eq_refl Bn ltac:(lia))
    as [Lq Dq].
  set (q := n / b) in *.
  assert (Hq : 0 < q)
    by (pose proof (pow2_pos (da + s - db - 1) ltac:(lia)); lia).
  destruct (binary_round_aux_normal false q e' (new_location b (n mod b)))
    as (m & e & R & Bm & Be & V1 & V2); [lia|lia|lia|].
  rewrite R. exists m, e, s.
  split; [reflexivity|]. split; [assumption|]. split; [lia|].
  split; [lia|]. split; [lia|].
  replace (e + s) with (e - e') by lia.
  pose proof (Z.div_mod n b ltac:(lia)) as DM. fold q in DM.
  pose proof (Z.mod_pos_bound n b Hb) as MB.
  split; nia.
Qed.

(** [a / b] returns whenever [b] is positive and [a] is below [2^1023]:
    the quotient cannot overflow, and underflow is not an error. *)
Lemma int_truediv_returns (a b : Z) :
  0 <= a < 2 ^ 1023 -> 0 < b ->
  exists x, int_truediv a b = Return x /\ is_finite x = true.
Proof.
  intros [Ha Ha'] Hb. unfold int_truediv.
  rewrite (proj2 (Z.eqb_neq b 0)) by lia.
  destruct (Z.eqb_spec a 0) as [->|Hne]; [eexists; split; reflexivity|].
  positive_operands. simpl xorb.
  unfold SFdiv_core_binary. rewrite fexp_eq.
  set (da := Zdigits2 a) in *. set (db := Zdigits2 b) in *.
  rewrite !Z.add_0_r. replace (0 - 0) with 0 by lia.
  set (e' := Z.min (Z.max (da - db - 53) (-1074)) 0).
  set (s := 0 - e').
  assert (Hs : 0 <= s) by lia.
  rewrite (shifted_dividend a s Hs), div_eucl_div.
  pose proof (Zdigits2_lt_pow a Ha) as Ba. fold da in Ba.
  pose proof (Zdigits2_pos a ltac:(lia)) as Pa. fold da in Pa.
  pose proof (Zdigits2_pos b Hb) as Pb. fold db in Pb.
  pose proof (Zdigits2_bounds b Hb) as Bb. fold db in Bb.
  assert (Da : da <= 1023) by (apply Zdigits2_le; lia).
  pose proof (pow2_pos s Hs) as HPs.
  set (q := a * 2 ^ s / b).
  assert (Hq : 0 <= q) by (apply Z.div_pos; nia).
  assert (Dq : e' + Zdigits2 q <= 1023).
  { destruct (Z.le_gt_cases 0 (da + s - db + 1)) as [L|G].
    - assert (Zdigits2 q <= da + s - db + 1); [|lia].
      apply Zdigits2_le; [lia|]. split; [lia|].
      apply Z.div_lt_upper_bound; [lia|].
      assert (E : 2 ^ (da + s) = 2 ^ (da + s - db + 1) * 2 ^ (db - 1))
        by (rewrite <- pow2_split by lia; f_equal; lia).
      rewrite pow2_split in E by lia.
      pose proof (pow2_pos (da + s - db + 1) L). nia.
    - assert (Z : q = 0); [|rewrite Z; simpl; lia].
      apply Z.div_small. split; [nia|].
      assert (E : 2 ^ (da + s) <= 2 ^ (db - 1))
        by (apply Z.pow_le_mono_r; lia).
      rewrite pow2_split in E by lia. nia. }
  pose proof (binary_round_aux_finite false q e'
                (new_location b ((a * 2 ^ s) mod b)) Hq ltac:(lia) Dq) as F.
  destruct (binary_round_aux prec emax false q e' _) eqn:R;
    try discriminate F; eexists; split; reflexivity.
Qed.

(** [x / y] on normal doubles, away from overflow and underflow. *)
Lemma SFdiv_normal (sx sy : bool) (mx my : positive) (ex ey : Z) :
  2 ^ 52 <= Zpos mx < 2 ^ 53 ->
  2 ^ 52 <= Zpos my < 2 ^ 53 ->
  -1021 <= ex - ey <= 1022 ->
  exists (m : positive) (e : Z),
    SFdiv prec emax (S754_finite sx mx ex) (S754_finite sy my ey)
    = S754_finite (xorb sx sy) m e
    /\ 2 ^ 52 <= Zpos m < 2 ^ 53
    /\ ex - ey - 53 <= e <= ex - ey - 51
    /\ (Zpos m - 1) * 2 ^ (e - (ex - ey - 53)) * Zpos my <= Zpos mx * 2 ^ 53
    /\ Zpos mx * 2 ^ 53 < (Zpos m + 1) * 2 ^ (e - (ex - ey - 53)) * Zpos my.
Proof.
  intros Bx By He. unfold SFdiv, SFdiv_core_binary.
  rewrite (Zdigits2_unique (Zpos mx) 53), (Zdigits2_unique (Zpos my) 53)
    by lia.
  rewrite fexp_eq.
  set (e' := Z.min (Z.max (53 + ex - (53 + ey) - 53) (-1074)) (ex - ey)).
  assert (He' : e' = ex - ey - 53) by lia.
  replace (ex - ey - e') with 53 by lia.
  rewrite Z.shiftl_mul_pow2 by lia.
  rewrite div_eucl_div.
  set (n := Zpos mx * 2 ^ 53).
  assert (Bn : 2 ^ (106 - 1) <= n < 2 ^ 106).
  { unfold n. replace (106 - 1) with (52 + 53) by lia.
    replace 106 with (53 + 53) by lia. rewrite !pow2_split by lia. nia. }
  destruct (Zdigits2_div n (Zpos my) 106 53 ltac:(lia)
              (Zdigits2_unique (Zpos my) 53 ltac:(lia) ltac:(lia)) Bn
              ltac:(lia)) as [Lq Dq].
  set (q := n / Zpos my) in *.
  assert (Hq : 0 < q) by (simpl in Lq; lia).
  destruct (binary_round_aux_normal (xorb sx sy) q e'
              (new_location (Zpos my) (n mod Zpos my)))
    as (m & e & R & Bm & Be & V1 & V2); [lia|lia|lia|].
  rewrite R. exists m, e.
  split; [reflexivity|]. split; [assumption|]. split; [lia|].
  rewrite <- He'.
  pose proof (Z.div_mod n (Zpos my) ltac:(lia)) as DM. fold q in DM.
  pose proof (Z.mod_pos_bound n (Zpos my) ltac:(lia)) as MB.
  pose proof (pow2_pos (e - e') ltac:(lia)) as PT.
  split; nia.
Qed.

(** [x * y] on normal doubles, away from overflow and underflow. *)
Lemma SFmul_normal (sx sy : bool) (mx my : positive) (ex ey : Z) :
  2 ^ 52 <= Zpos mx < 2 ^ 53 ->
  2 ^ 52 <= Zpos my < 2 ^ 53 ->
  -1126 <= ex + ey <= 917 ->
  exists (m : positive) (e : Z),
    SFmul prec emax (S754_finite sx mx ex) (S754_finite sy my ey)
    = S754_finite (xorb sx sy) m e
    /\ 2 ^ 52 <= Zpos m < 2 ^ 53
    /\ ex + ey + 52 <= e <= ex + ey + 54.
Proof.
  intros Bx By He. unfold SFmul.
  set (n := Zpos (mx * my)).
  assert (Hn : n = Zpos mx * Zpos my) by (unfold n; lia).
  assert (Bn : 2 ^ 104 <= n < 2 ^ 106).
  { replace 104 with (52 + 52) by lia. replace 106 with (53 + 53) by lia.
    rewrite !pow2_split by lia. nia. }
  assert (Dn : 105 <= Zdigits2 n <= 106).
  { split; [apply Zdigits2_ge|apply Zdigits2_le]; simpl; lia. }
  destruct (binary_round_aux_normal (xorb sx sy) n (ex + ey) loc_Exact)
    as (m & e & R & Bm & Be & _); [lia|lia|lia|].
  rewrite R. exists m, e. repeat split; try lia.
Qed.

Lemma shl_align_spec (mx : positive) (ex ex' : Z) :
  let '(mz, ez) := shl_align mx ex ex' in
  ez = Z.min ex ex' /\ Zpos mz = Zpos mx * 2 ^ (ex - ez).
Proof.
  unfold shl_align. destruct (ex' - ex) as [|d|d] eqn:E.
  - split; [lia|]. rewrite Z.sub_diag. simpl. lia.
  - split; [lia|]. rewrite Z.sub_diag. simpl. lia.
  - split; [lia|]. rewrite Pos_iter_xO. f_equal. f_equal. lia.
Qed.

(** The conversion of a positive [int] of at most 1023 digits: a normal
    double. *)
Lemma binary_round_normal (s : bool) (p : positive) :
  Zdigits2 (Zpos p) <= 1023 ->
  exists (m : positive) (e : Z),
    binary_round prec emax s p 0 = S754_finite s m e
    /\ 2 ^ 52 <= Zpos m < 2 ^ 53
    /\ Zdigits2 (Zpos p) - 53 <= e <= Zdigits2 (Zpos p) - 52.
Proof.
  intros Hd. unfold binary_round.
  pose proof (shl_align_spec p 0 (fexp prec emax (Zpos (digits2_pos p) + 0)))
    as S.
  destruct (shl_align p 0 (fexp prec emax (Zpos (digits2_pos p) + 0)))
    as [mz ez].
  destruct S as [Se Sm]. rewrite fexp_eq in Se.
  change (Zpos (digits2_pos p)) with (Zdigits2 (Zpos p)) in Se.
  set (d := Zdigits2 (Zpos p)) in *.
  pose proof (Zdigits2_pos (Zpos p) ltac:(lia)) as Pd. fold d in Pd.
  pose proof (Zdigits2_bounds (Zpos p) ltac:(lia)) as Bp. fold d in Bp.
  assert (Dz : Zdigits2 (Zpos mz) = d - ez).
  { apply Zdigits2_unique; [|lia]. rewrite Sm.
    replace (d - ez - 1) with (d - 1 + (0 - ez)) by lia.
    replace (d - ez) with (d + (0 - ez)) by lia.
    rewrite !pow2_split by lia.
    pose proof (pow2_pos (0 - ez) ltac:(lia)). nia. }
  destruct (binary_round_aux_normal s (Zpos mz) ez loc_Exact)
    as (m & e & R & Bm & Be & _); [lia|lia|lia|].
  rewrite R. exists m, e. repeat split; try lia.
Qed.

(** The conversion of a positive [int] below [2^53] is exact. *)
Lemma binary_round_exact (s : bool) (p : positive) :
  Zpos p < 2 ^ 53 ->
  exists (m : positive) (e : Z),
    binary_round prec emax s p 0 = S754_finite s m e
    /\ 2 ^ 52 <= Zpos m < 2 ^ 53
    /\ -52 <= e <= 0
    /\ Zpos m = Zpos p * 2 ^ (- e).
Proof.
  intros Hp. unfold binary_round.
  pose proof (shl_align_spec p 0 (fexp prec emax (Zpos (digits2_pos p) + 0)))
    as S.
  destruct (shl_align p 0 (fexp prec emax (Zpos (digits2_pos p) + 0)))
    as [mz ez].
  destruct S as [Se Sm]. rewrite fexp_eq in Se.
  change (Zpos (digits2_pos p)) with (Zdigits2 (Zpos p)) in Se.
  set (d := Zdigits2 (Zpos p)) in *.
  pose proof (Zdigits2_pos (Zpos p) ltac:(lia)) as Pd. fold d in Pd.
  pose proof (Zdigits2_bounds (Zpos p) ltac:(lia)) as Bp. fold d in Bp.
  assert (Hd : d <= 53) by (apply Zdigits2_le; lia).
  assert (Ez : ez = d - 53) by lia.
  assert (Bz : 2 ^ 52 <= Zpos mz < 2 ^ 53).
  { rewrite Sm.
    assert (E1 : 2 ^ 52 = 2 ^ (d - 1) * 2 ^ (0 - ez))
      by (rewrite <- pow2_split by lia; f_equal; lia).
    assert (E2 : 2 ^ 53 = 2 ^ d * 2 ^ (0 - ez))
      by (rewrite <- pow2_split by lia; f_equal; lia).
    rewrite E1, E2.
    pose proof (pow2_pos (0 - ez) ltac:(lia)). nia. }
  exists mz, ez.
  split; [apply binary_round_aux_exact; lia|].
  split; [assumption|]. split; [lia|]. rewrite Sm. f_equal.
Qed.

End Operations.

(** ** Rational values and error bounds *)

Section Values.

Lemma Qpow2_pos (e : Z) : (0 < 2 ^ e)%Q.
Proof. apply Qpower_0_lt. reflexivity. Qed.

Lemma Qpow2_add (a b : Z) : (2 ^ (a + b) == 2 ^ a * 2 ^ b)%Q.
Proof. apply Qpower_plus. discriminate. Qed.

Lemma Qpow2_inject (k : Z) : 0 <= k -> (inject_Z (2 ^ k) == 2 ^ k)%Q.
Proof. intros H. now rewrite Zpower_Qpower. Qed.

Lemma Qpow2_opp (e : Z) : (2 ^ (- e) * 2 ^ e == 1)%Q.
Proof. rewrite <- Qpow2_add. replace (- e + e) with 0 by lia. reflexivity. Qed.

Lemma inject_Z_pred (z : Z) : (inject_Z (z - 1) == inject_Z z - 1)%Q.
Proof. unfold Z.sub. rewrite inject_Z_plus. reflexivity. Qed.

Lemma unit_roundoff_bounds : (0 < unit_roundoff /\ unit_roundoff < 1)%Q.
Proof. split; reflexivity. Qed.

Lemma F2Q_pos (m : positive) (e : Z) : (0 < F2Q (S754_finite false m e))%Q.
Proof.
  simpl. pose proof (Qpow2_pos e).
  assert (0 < inject_Z (Zpos m))%Q by (rewrite <- (Zlt_Qlt 0); lia).
  nra.
Qed.

(** One unit in the last place of a normal double is at most
    [unit_roundoff] times its value. *)
Lemma ulp_le (m : positive) (U : Q) :
  2 ^ 52 <= Zpos m -> (0 < U)%Q ->
  (U <= unit_roundoff * (inject_Z (Zpos m) * U))%Q.
Proof.
  intros Hm HU.
  assert (H : (inject_Z (2 ^ 52) <= inject_Z (Zpos m))%Q)
    by (rewrite <- Zle_Qle; exact Hm).
  change (inject_Z (2 ^ 52)) with (4503599627370496 # 1)%Q in H.
  unfold unit_roundoff.
  change (2 ^ 52)%positive with 4503599627370496%positive.
  set (M := inject_Z (Zpos m)) in *.
  assert (E : ((1 # 4503599627370496) * (M * U)
               == (M * (1 # 4503599627370496)) * U)%Q) by ring.
  rewrite E.
  assert (1 <= M * (1 # 4503599627370496))%Q by lra.
  nra.
Qed.

(** From one unit in the last place to a relative error: if [A / B] lies
    within [U] of the normal double [M * U], it lies within a factor
    [1 - unit_roundoff .. 1 + unit_roundoff] of it. *)
Lemma relative_error (m : positive) (U A B : Q) :
  2 ^ 52 <= Zpos m -> (0 < U)%Q -> (0 < B)%Q ->
  ((inject_Z (Zpos m) - 1) * U * B <= A)%Q ->
  (A <= (inject_Z (Zpos m) + 1) * U * B)%Q ->
  (inject_Z (Zpos m) * U * (1 - unit_roundoff) * B <= A
   /\ A <= inject_Z (Zpos m) * U * (1 + unit_roundoff) * B)%Q.
Proof.
  intros Hm HU HB L R.
  pose proof (ulp_le m U Hm HU) as E.
  set (M := inject_Z (Zpos m)) in *. set (u := unit_roundoff) in *.
  split.
  - assert (M * U * (1 - u) <= (M - 1) * U)%Q by lra.
    assert (M * U * (1 - u) * B <= (M - 1) * U * B)%Q by nra.
    lra.
  - assert ((M + 1) * U <= M * U * (1 + u))%Q by lra.
    assert ((M + 1) * U * B <= M * U * (1 + u) * B)%Q by nra.
    lra.
Qed.

(** The aspect ratio is within a relative error [unit_roundoff] of
    [a / b]. *)
Lemma int_truediv_accurate (a b : Z) :
  0 < a -> 0 < b ->
  -1021 <= Zdigits2 a - Zdigits2 b <= 1022 ->
  exists (m : positive) (e : Z),
    int_truediv a b = Return (S754_finite false m e)
    /\ 2 ^ 52 <= Zpos m < 2 ^ 53
    /\ Zdigits2 a - Zdigits2 b - 53 <= e <= Zdigits2 a - Zdigits2 b - 51
    /\ (F2Q (S754_finite false m e) * (1 - unit_roundoff) * inject_Z b
        <= inject_Z a)%Q
    /\ (inject_Z a
        <= F2Q (S754_finite false m e) * (1 + unit_roundoff) * inject_Z b)%Q.
Proof.
  intros Ha Hb Hd.
  destruct (int_truediv_normal a b Ha Hb Hd)
    as (m & e & s & R & Bm & Be & Hs & Hes & V1 & V2).
  exists m, e. split; [exact R|]. split; [exact Bm|]. split; [exact Be|].
  simpl F2Q.
  apply Z.lt_le_incl in V2.
  rewrite Zle_Qle in V1, V2.
  rewrite !inject_Z_mult, !Qpow2_inject, Qpow2_add in V1, V2 by assumption.
  rewrite inject_Z_plus in V2. rewrite inject_Z_pred in V1.
  change (inject_Z 1) with 1%Q in V2.
  pose proof (Qpow2_pos s) as PS. pose proof (Qpow2_pos e) as PE.
  assert (HB : (0 < inject_Z b)%Q) by (rewrite <- (Zlt_Qlt 0); lia).
  apply relative_error; try lia; try assumption.
  - apply (Qmult_le_r _ _ (2 ^ s)%Q PS). lra.
  - apply (Qmult_le_r _ _ (2 ^ s)%Q PS). lra.
Qed.

(** The quotient of two positive normal doubles is within a relative
    error [unit_roundoff] of the exact quotient. *)
Lemma SFdiv_accurate (mx my : positive) (ex ey : Z) :
  2 ^ 52 <= Zpos mx < 2 ^ 53 ->
  2 ^ 52 <= Zpos my < 2 ^ 53 ->
  -1021 <= ex - ey <= 1022 ->
  exists (m : positive) (e : Z),
    SFdiv prec emax (S754_finite false mx ex) (S754_finite false my ey)
    = S754_finite false m e
    /\ (F2Q (S754_finite false m e) * (1 - unit_roundoff)
        * F2Q (S754_finite false my ey)
        <= F2Q (S754_finite false mx ex))%Q
    /\ (F2Q (S754_finite false mx ex)
        <= F2Q (S754_finite false m e) * (1 + unit_roundoff)
           * F2Q (S754_finite false my ey))%Q.
Proof.
  intros Bx By He.
  destruct (SFdiv_normal false false mx my ex ey Bx By He)
    as (m & e & R & Bm & Be & V1 & V2).
  exists m, e. split; [exact R|].
  pose proof (F2Q_pos my ey) as HB. simpl F2Q in *.
  apply Z.lt_le_incl in V2.
  rewrite Zle_Qle in V1, V2.
  rewrite !inject_Z_mult, !Qpow2_inject in V1, V2 by lia.
  rewrite inject_Z_plus in V2. rewrite inject_Z_pred in V1.
  change (inject_Z 1) with 1%Q in V2.
  (* both sides are scaled by 2^(ex - 53) *)
  pose proof (Qpow2_pos (ex - 53)) as PS.
  assert (E1 : (2 ^ (e - (ex - ey - 53)) * 2 ^ (ex - 53) == 2 ^ e * 2 ^ ey)%Q).
  { rewrite <- !Qpow2_add. f_equiv. lia. }
  assert (E2 : (2 ^ 53 * 2 ^ (ex - 53) == 2 ^ ex)%Q).
  { rewrite <- Qpow2_add. f_equiv. lia. }
  pose proof (Qpow2_pos e) as PE. pose proof (Qpow2_pos ey) as PY.
  set (T := (2 ^ (e - (ex - ey - 53)))%Q) in *.
  set (S := (2 ^ (ex - 53))%Q) in *.
  set (U := (2 ^ e)%Q) in *. set (Y := (2 ^ ey)%Q) in *.
  set (X := (2 ^ ex)%Q) in *. set (C := (2 ^ 53)%Q) in *.
  set (M := inject_Z (Zpos m)) in *.
  set (Mx := inject_Z (Zpos mx)) in *. set (My := inject_Z (Zpos my)) in *.
  apply relative_error; try lia; try assumption; fold M Mx My U Y X.
  - assert (H : ((M - 1) * T * My * S <= Mx * C * S)%Q)
      by (apply Qmult_le_r; assumption).
    assert (L : ((M - 1) * U * (My * Y) == (M - 1) * My * (T * S))%Q)
      by (rewrite E1; ring).
    assert (R' : (Mx * X == Mx * (C * S))%Q) by (rewrite E2; ring).
    lra.
  - assert (H : (Mx * C * S <= (M + 1) * T * My * S)%Q)
      by (apply Qmult_le_r; assumption).
    assert (L : ((M + 1) * U * (My * Y) == (M + 1) * My * (T * S))%Q)
      by (rewrite E1; ring).
    assert (R' : (Mx * X == Mx * (C * S))%Q) by (rewrite E2; ring).
    lra.
Qed.

(** [float(n)] is exact below [2^53]. *)
Lemma of_int_exact (n : Z) :
  0 < n < 2 ^ 53 ->
  exists (m : positive) (e : Z),
    of_int n = Return (S754_finite false m e)
    /\ 2 ^ 52 <= Zpos m < 2 ^ 53 /\ -52 <= e <= 0
    /\ (F2Q (S754_finite false m e) == inject_Z n)%Q.
Proof.
  intros [H0 H]. destruct n as [|p|p]; try lia.
  destruct (binary_round_exact false p H) as (m & e & R & Bm & Be & V).
  exists m, e. unfold of_int. simpl binary_normalize. rewrite R.
  split; [reflexivity|]. split; [exact Bm|]. split; [exact Be|].
  simpl F2Q. rewrite V, inject_Z_mult, Qpow2_inject by lia.
  rewrite <- Qmult_assoc, Qpow2_opp. ring.
Qed.

(** A shift by [e] binary places is the floor of the product with
    [2^e]. *)
Lemma shiftl_bounds (z e : Z) :
  (inject_Z (Z.shiftl z e) <= inject_Z z * 2 ^ e
   /\ inject_Z z * 2 ^ e < inject_Z (Z.shiftl z e) + 1)%Q.
Proof.
  destruct (Z.le_gt_cases 0 e) as [He|He].
  - rewrite Z.shiftl_mul_pow2, inject_Z_mult, Qpow2_inject by assumption.
    split; lra.
  - rewrite Z.shiftl_div_pow2 by lia.
    set (P := 2 ^ (- e)).
    assert (HP : 0 < P) by (apply pow2_pos; lia).
    pose proof (Z.div_mod z P ltac:(lia)) as DM.
    pose proof (Z.mod_pos_bound z P HP) as MB.
    set (h := z / P) in *.
    assert (L : h * P <= z) by lia.
    assert (R : z + 1 <= (h + 1) * P) by lia.
    rewrite Zle_Qle in L, R.
    rewrite !inject_Z_mult, !inject_Z_plus in *.
    unfold P in L, R. rewrite Qpow2_inject in L, R by lia.
    change (inject_Z 1) with 1%Q in R.
    pose proof (Qpow2_opp e) as O. pose proof (Qpow2_pos e) as PE.
    set (U := (2 ^ e)%Q) in *. set (V := (2 ^ (- e))%Q) in *.
    set (M := inject_Z z) in *. set (H := inject_Z h) in *.
    assert (L' : (H * V * U <= M * U)%Q) by (apply Qmult_le_r; assumption).
    assert (R' : ((M + 1) * U <= (H + 1) * V * U)%Q)
      by (apply Qmult_le_r; assumption).
    assert (EL : (H * V * U == H * (V * U))%Q) by ring.
    assert (ER : ((H + 1) * V * U == (H + 1) * (V * U))%Q) by ring.
    rewrite EL, O in L'. rewrite ER, O in R'.
    split; lra.
Qed.

(** [floor] is the floor of the rational value. *)
Lemma floor_spec (x : float) :
  (inject_Z (floor x) <= F2Q x /\ F2Q x < inject_Z (floor x) + 1)%Q.
Proof.
  destruct x as [s|s| |[|] m e]; simpl floor; simpl F2Q;
    try apply shiftl_bounds; change (inject_Z 0) with 0%Q; split; lra.
Qed.

(** [int(x)] of a positive double is the integer part of its value. *)
Lemma to_int_bounds (m : positive) (e : Z) :
  exists h,
    to_int (S754_finite false m e) = Return h
    /\ (inject_Z h <= F2Q (S754_finite false m e))%Q
    /\ (F2Q (S754_finite false m e) < inject_Z h + 1)%Q.
Proof.
  exists (Z.shiftl (Zpos m) e). split; [reflexivity|].
  apply (shiftl_bounds (Zpos m) e).
Qed.

(** Two roundings and a truncation: [H = int(g)], where [g] is the rounded
    [N / r] and [r] the rounded [A / B]. *)
Lemma two_roundings (A B N H r g : Q) :
  (0 < A -> 0 < B -> 0 < r -> 0 < g ->
   r * (1 - unit_roundoff) * B <= A -> A <= r * (1 + unit_roundoff) * B ->
   g * (1 - unit_roundoff) * r <= N -> N <= g * (1 + unit_roundoff) * r ->
   H <= g -> g < H + 1 ->
   H * A * (1 - unit_roundoff) <= N * B * (1 + unit_roundoff)
   /\ N * B * (1 - unit_roundoff) < (H + 1) * A * (1 + unit_roundoff))%Q.
Proof.
  intros HA HB Hr Hg F1 F2 F3 F4 F5 F6.
  destruct unit_roundoff_bounds as [U0 U1].
  set (u := unit_roundoff) in *.
  split.
  - assert (S1 : (H * (A * (1 - u)) <= g * (A * (1 - u)))%Q)
      by (apply Qmult_le_compat_r; [assumption|nra]).
    assert (S2 : (A * (g * (1 - u)) <= r * (1 + u) * B * (g * (1 - u)))%Q)
      by (apply Qmult_le_compat_r; [assumption|nra]).
    assert (S3 : (g * (1 - u) * r * ((1 + u) * B) <= N * ((1 + u) * B))%Q)
      by (apply Qmult_le_compat_r; [assumption|nra]).
    lra.
  - assert (S1 : (N * (B * (1 - u)) <= g * (1 + u) * r * (B * (1 - u)))%Q)
      by (apply Qmult_le_compat_r; [assumption|nra]).
    assert (S2 : (r * (1 - u) * B * (g * (1 + u)) <= A * (g * (1 + u)))%Q)
      by (apply Qmult_le_compat_r; [assumption|nra]).
    assert (S3 : (g * ((1 + u) * A) < (H + 1) * ((1 + u) * A))%Q)
      by (apply Qmult_lt_compat_r; [nra|assumption]).
    lra.
Qed.

End Values.

(** * The branches of [rehint_imageview] *)

Section Branches.

Lemma bind_Return {A B : Type} (a : A) (f : A -> py B) :
  bind (Return a) f = f a.
Proof. reflexivity. Qed.

Lemma bind_Raise {A B : Type} (e : pyerr) (f : A -> py B) :
  bind (Raise e) f = Raise e.
Proof. reflexivity. Qed.

(** With both style dimensions set and an image present, the result is the
    pair of scaled style dimensions and no aspect ratio. *)
Lemma rehint_both_set (image : Image.t) (style : Style.t) (scale w h : Z) :
  Style.width style = Some w ->
  Style.height style = Some h ->
  rehint_imageview (Some image) style scale
  = Return (Int (w * scale), Int (h * scale), None).
Proof.
  intros Hw Hh. unfold rehint_imageview. rewrite Hw, Hh. reflexivity.
Qed.

Lemma rehint_only_width (image : Image.t) (style : Style.t) (scale v : Z) :
  Style.width style = Some v -> Style.height style = None ->
  rehint_imageview (Some image) style scale =
  (aspect_ratio <- int_truediv (Z.of_N (Image.width image))
                               (Z.of_N (Image.height image)) ;;
   q <- int_div_float (v * scale) aspect_ratio ;;
   height <- to_int q ;;
   ret (Int (v * scale),
        if Style.flex style then at_least 0 else Int height,
        Some aspect_ratio)).
Proof. intros Hw Hh. unfold rehint_imageview. now rewrite Hw, Hh. Qed.

Lemma rehint_only_height (image : Image.t) (style : Style.t) (scale v : Z) :
  Style.width style = None -> Style.height style = Some v ->
  rehint_imageview (Some image) style scale =
  (aspect_ratio <- int_truediv (Z.of_N (Image.width image))
                               (Z.of_N (Image.height image)) ;;
   p <- int_mul_float (v * scale) aspect_ratio ;;
   width <- to_int p ;;
   ret (if Style.flex style then at_least 0 else Int width,
        Int (v * scale),
        Some aspect_ratio)).
Proof. intros Hw Hh. unfold rehint_imageview. now rewrite Hw, Hh. Qed.

Lemma rehint_no_dims (image : Image.t) (style : Style.t) (scale : Z) :
  Style.width style = None -> Style.height style = None ->
  rehint_imageview (Some image) style scale =
  (aspect_ratio <- int_truediv (Z.of_N (Image.width image))
                               (Z.of_N (Image.height image)) ;;
   ret (if Style.flex style then at_least 0
        else Int (Z.of_N (Image.width image) * scale),
        if Style.flex style then at_least 0
        else Int (Z.of_N (Image.height image) * scale),
        Some aspect_ratio)).
Proof. intros Hw Hh. unfold rehint_imageview. now rewrite Hw, Hh. Qed.

Lemma digits_below_limit (a : Z) :
  0 < a < magnitude_limit -> 1 <= Zdigits2 a <= 500.
Proof.
  intros [H0 H]. pose proof (Zdigits2_pos a H0).
  assert (Zdigits2 a <= 500) by (apply Zdigits2_le; [lia|split; [lia|exact H]]).
  lia.
Qed.

Lemma digits_below_pixel_limit (a : Z) :
  0 < a < pixel_limit -> 1 <= Zdigits2 a <= 25.
Proof.
  intros [H0 H]. pose proof (Zdigits2_pos a H0).
  assert (Zdigits2 a <= 25) by (apply Zdigits2_le; [lia|split; [lia|exact H]]).
  lia.
Qed.

(** The aspect ratio of an image with positive dimensions below the
    limit: a positive normal double. *)
Lemma ratio_normal (a b : Z) :
  0 < a < magnitude_limit -> 0 < b < magnitude_limit ->
  exists (m : positive) (e : Z),
    int_truediv a b = Return (S754_finite false m e)
    /\ 2 ^ 52 <= Zpos m < 2 ^ 53 /\ -552 <= e <= 448.
Proof.
  intros Ha Hb.
  pose proof (digits_below_limit a Ha). pose proof (digits_below_limit b Hb).
  destruct (int_truediv_normal a b) as (m & e & s & R & Bm & Be & _);
    [lia|lia|lia|].
  exists m, e. repeat split; try assumption; lia.
Qed.

(** The aspect ratio of an image of width 0 is 0.0. *)
Lemma ratio_zero (b : Z) : 0 < b -> int_truediv 0 b = Return (S754_zero false).
Proof.
  intros Hb. unfold int_truediv.
  rewrite (proj2 (Z.eqb_neq b 0)), (proj2 (Z.ltb_ge b 0)) by lia.
  reflexivity.
Qed.

(** [float(n)] below the limit: a normal double with the sign of [n]. *)
Lemma of_int_normal (n : Z) :
  n <> 0 -> Z.abs n < magnitude_limit ->
  exists (m : positive) (e : Z),
    of_int n = Return (S754_finite (n <? 0) m e)
    /\ 2 ^ 52 <= Zpos m < 2 ^ 53 /\ -52 <= e <= 448.
Proof.
  intros Hn Hl. unfold of_int.
  destruct n as [|p|p]; [lia| |]; simpl binary_normalize.
  - pose proof (digits_below_limit (Zpos p) ltac:(lia)) as D.
    destruct (binary_round_normal false p ltac:(lia)) as (m & e & R & Bm & Be).
    rewrite R. exists m, e. repeat split; try lia.
  - pose proof (digits_below_limit (Zpos p) ltac:(lia)) as D.
    destruct (binary_round_normal true p ltac:(lia)) as (m & e & R & Bm & Be).
    rewrite R. exists m, e. repeat split; try lia.
Qed.

(** [n / ratio] for [n] below the limit and a ratio as in [ratio_normal]
    returns a finite double, whose sign bit is that of [n]. *)
Lemma int_div_float_returns (n : Z) (m : positive) (e : Z) :
  Z.abs n < magnitude_limit ->
  2 ^ 52 <= Zpos m < 2 ^ 53 -> -552 <= e <= 448 ->
  exists q, int_div_float n (S754_finite false m e) = Return q
            /\ (q = S754_zero false
                \/ exists mq eq, q = S754_finite (n <? 0) mq eq).
Proof.
  intros Hl Bm Be. unfold int_div_float.
  destruct (Z.eq_dec n 0) as [->|Hn].
  - eexists. split; [reflexivity|]. now left.
  - destruct (of_int_normal n Hn Hl) as (mn & en & R & Bn & Ben).
    rewrite R, bind_Return. unfold truediv. simpl is_zero.
    destruct (SFdiv_normal (n <? 0) false mn m en e Bn Bm ltac:(lia))
      as (mq & eq & Q & _).
    rewrite Q, xorb_false_r. eexists. split; [reflexivity|].
    right. eauto.
Qed.

(** [n * ratio] for [n] below the limit and a ratio as in [ratio_normal]
    returns a finite double, whose sign bit is that of [n]. *)
Lemma int_mul_float_returns (n : Z) (m : positive) (e : Z) :
  Z.abs n < magnitude_limit ->
  2 ^ 52 <= Zpos m < 2 ^ 53 -> -552 <= e <= 448 ->
  exists p, int_mul_float n (S754_finite false m e) = Return p
            /\ (p = S754_zero false
                \/ exists mp ep, p = S754_finite (n <? 0) mp ep).
Proof.
  intros Hl Bm Be. unfold int_mul_float.
  destruct (Z.eq_dec n 0) as [->|Hn].
  - eexists. split; [reflexivity|]. now left.
  - destruct (of_int_normal n Hn Hl) as (mn & en & R & Bn & Ben).
    rewrite R, bind_Return. unfold mul.
    destruct (SFmul_normal (n <? 0) false mn m en e Bn Bm ltac:(lia))
      as (mp & ep & P & _).
    rewrite P, xorb_false_r. eexists. split; [reflexivity|].
    right. eauto.
Qed.

(** [n * 0.0] is a zero with the sign of [n]. *)
Lemma int_mul_float_zero (n : Z) :
  Z.abs n < magnitude_limit ->
  int_mul_float n (S754_zero false) = Return (S754_zero (n <? 0)).
Proof.
  intros Hl. unfold int_mul_float.
  destruct (Z.eq_dec n 0) as [->|Hn]; [reflexivity|].
  destruct (of_int_normal n Hn Hl) as (mn & en & R & _).
  rewrite R, bind_Return. unfold mul. simpl. now rewrite xorb_false_r.
Qed.

(** On a double that is not negative, [int(x)] is the floor. *)
Lemma to_int_nonneg (q : float) :
  q = S754_zero false \/ (exists m e, q = S754_finite false m e) ->
  to_int q = Return (floor q) /\ is_finite q = true.
Proof. intros [->|(m & e & ->)]; split; reflexivity. Qed.

Lemma to_int_finite (q : float) :
  is_finite q = true -> exists n, to_int q = Return n.
Proof. destruct q; try discriminate; intros _; eexists; reflexivity. Qed.

End Branches.

(** * Properties of [rehint_imageview] *)

(** The scenario of the specification: image 200 x 100, width 50, height
    unset, no flex, scale 1. *)
Example rehint_200x100_w50 :
  rehint_imageview (Some image_200x100) (only_width 50 false) 1
  = Return (Int 50, Int 25, Some two).
Proof. vm_compute. reflexivity. Qed.

(** ** No image, or both dimensions explicit: integer arithmetic only *)

(** C1: without an image the hint is [(0, 0, None)], whatever the style
    and the scale. *)
Theorem rehint_no_image (style : Style.t) (scale : Z) :
  rehint_imageview None style scale = Return (Int 0, Int 0, None).
Proof. reflexivity. Qed.

(** C2: when both style dimensions are set the call returns, and the
    aspect ratio it returns is [None], with or without an image and
    whatever the image's dimensions. *)
Theorem rehint_both_set_no_ratio
    (image : option Image.t) (style : Style.t) (scale w h : Z) :
  Style.width style = Some w ->
  Style.height style = Some h ->
  exists width height,
    rehint_imageview image style scale = Return (width, height, None).
Proof.
  intros Hw Hh. destruct image as [image|].
  - exists (Int (w * scale)), (Int (h * scale)).
    now apply rehint_both_set.
  - exists (Int 0), (Int 0). reflexivity.
Qed.

Lemma rehint_both_set_no_ratio_witness :
  exists width height,
    rehint_imageview (Some image_200x100) (both_dims 50 30 true) 3
    = Return (width, height, None).
Proof.
  apply (rehint_both_set_no_ratio (Some image_200x100) (both_dims 50 30 true)
           3 50 30); reflexivity.
Defined.

(** C3: with an image and both style dimensions set, the hint is
    [(style.width * scale, style.height * scale, None)] (the products are
    integers, so taking their floor changes nothing); for the image
    200 x 100, width 50, height 30 and scale 2 it is [(100, 60, None)]. *)
Theorem rehint_explicit_size :
  (forall (image : Image.t) (style : Style.t) (scale w h : Z),
      Style.width style = Some w ->
      Style.height style = Some h ->
      rehint_imageview (Some image) style scale
      = Return (Int (w * scale), Int (h * scale), None))
  /\ (forall flex,
         rehint_imageview (Some image_200x100) (both_dims 50 30 flex) 2
         = Return (Int 100, Int 60, None)).
Proof.
  split.
  - intros. now apply rehint_both_set.
  - intros flex. reflexivity.
Qed.

Lemma rehint_explicit_size_witness :
  rehint_imageview (Some {| Image.width := 7; Image.height := 3 |})
    (both_dims 11 5 false) 4
  = Return (Int 44, Int 20, None).
Proof.
  apply (proj1 rehint_explicit_size
           {| Image.width := 7; Image.height := 3 |} (both_dims 11 5 false)
           4 11 5); reflexivity.
Defined.

(** C9: an image of height 0 does not make the both-set branch fail: the
    call returns the scaled style dimensions and no aspect ratio, and no
    division is evaluated. *)
Theorem rehint_both_set_zero_height
    (image : Image.t) (style : Style.t) (scale w h : Z) :
  Image.height image = 0%N ->
  Style.width style = Some w ->
  Style.height style = Some h ->
  rehint_imageview (Some image) style scale
  = Return (Int (w * scale), Int (h * scale), None).
Proof.
  intros _ Hw Hh. now apply rehint_both_set.
Qed.

Lemma rehint_both_set_zero_height_witness :
  rehint_imageview (Some {| Image.width := 200; Image.height := 0 |})
    (both_dims 50 30 false) 2
  = Return (Int 100, Int 60, None).
Proof.
  apply (rehint_both_set_zero_height
           {| Image.width := 200; Image.height := 0 |} (both_dims 50 30 false)
           2 50 30); reflexivity.
Defined.

(** The same image does fail as soon as one style dimension is left
    unset: the division is then evaluated. *)
Example rehint_zero_height_raises :
  rehint_imageview (Some {| Image.width := 200; Image.height := 0 |})
    (only_width 50 false) 2
  = Raise ZeroDivisionError.
Proof. reflexivity. Qed.

(** ** One explicit dimension *)

(** C4, as amended: for an image whose height is positive, with width and
    height below [magnitude_limit], and a style dimension [v] with
    [0 <= v * scale < magnitude_limit]:
    - if only [style.width] is set and the image's width is positive, the
      hint is [(v * scale, floor (v * scale / ratio), ratio)];
    - if only [style.height] is set, it is
      [(floor (v * scale * ratio), v * scale, ratio)];
    where [ratio] is the double [image.width / image.height], the quotient
    and the product are those of Python (the integer converted to a double,
    then one IEEE operation) and are finite, and the derived axis is
    [at_least 0] instead when [style.flex] is true. *)
Theorem rehint_one_dimension
    (image : Image.t) (style : Style.t) (scale v : Z) :
  let iw := Z.of_N (Image.width image) in
  let ih := Z.of_N (Image.height image) in
  0 < ih < magnitude_limit -> iw < magnitude_limit ->
  0 <= v * scale < magnitude_limit ->
  (Style.width style = Some v -> Style.height style = None -> 0 < iw ->
   exists ratio q,
     int_truediv iw ih = Return ratio
     /\ int_div_float (v * scale) ratio = Return q
     /\ is_finite q = true
     /\ rehint_imageview (Some image) style scale
        = Return (Int (v * scale),
                  if Style.flex style then at_least 0 else Int (floor q),
                  Some ratio))
  /\ (Style.width style = None -> Style.height style = Some v ->
      exists ratio p,
        int_truediv iw ih = Return ratio
        /\ int_mul_float (v * scale) ratio = Return p
        /\ is_finite p = true
        /\ rehint_imageview (Some image) style scale
           = Return (if Style.flex style then at_least 0 else Int (floor p),
                     Int (v * scale),
                     Some ratio)).
Proof.
  intros iw ih Hh Hw Hn.
  assert (Habs : Z.abs (v * scale) < magnitude_limit) by lia.
  assert (Hsign : (v * scale <? 0) = false) by (apply Z.ltb_ge; lia).
  split.
  - intros Sw Sh Hpos.
    rewrite (rehint_only_width image style scale v Sw Sh). fold iw ih.
    destruct (ratio_normal iw ih ltac:(lia) Hh) as (m & e & R & Bm & Be).
    destruct (int_div_float_returns (v * scale) m e Habs Bm Be)
      as (q & Q & Hq).
    rewrite Hsign in Hq. destruct (to_int_nonneg q Hq) as [T F].
    exists (S754_finite false m e), q.
    rewrite R, bind_Return, Q, bind_Return, T, bind_Return.
    repeat split; try assumption; reflexivity.
  - intros Sw Sh.
    rewrite (rehint_only_height image style scale v Sw Sh). fold iw ih.
    destruct (Z.eq_dec iw 0) as [Hz|Hnz].
    + exists (S754_zero false), (S754_zero false).
      rewrite Hz, (ratio_zero ih) by lia.
      rewrite bind_Return, (int_mul_float_zero _ Habs), Hsign, bind_Return.
      repeat split; reflexivity.
    + assert (Hpos : 0 < iw) by (unfold iw in *; lia).
      destruct (ratio_normal iw ih ltac:(lia) Hh) as (m & e & R & Bm & Be).
      destruct (int_mul_float_returns (v * scale) m e Habs Bm Be)
        as (p & P & Hp).
      rewrite Hsign in Hp. destruct (to_int_nonneg p Hp) as [T F].
      exists (S754_finite false m e), p.
      rewrite R, bind_Return, P, bind_Return, T, bind_Return.
      repeat split; try assumption; reflexivity.
Qed.

Lemma rehint_one_dimension_witness :
  (exists ratio q,
      int_truediv (Z.of_N (Image.width image_200x100))
                  (Z.of_N (Image.height image_200x100)) = Return ratio
      /\ int_div_float (50 * 1) ratio = Return q
      /\ is_finite q = true
      /\ rehint_imageview (Some image_200x100) (only_width 50 false) 1
         = Return (Int (50 * 1), Int (floor q), Some ratio))
  /\ (exists ratio p,
         int_truediv (Z.of_N (Image.width image_200x100))
                     (Z.of_N (Image.height image_200x100)) = Return ratio
         /\ int_mul_float (50 * 1) ratio = Return p
         /\ is_finite p = true
         /\ rehint_imageview (Some image_200x100) (only_height 50 true) 1
            = Return (at_least 0, Int (50 * 1), Some ratio)).
Proof.
  split.
  - apply (proj1 (rehint_one_dimension image_200x100 (only_width 50 false)
                    1 50 ltac:(vm_compute; split; reflexivity)
                    ltac:(vm_compute; reflexivity)
                    ltac:(vm_compute; split; [discriminate|reflexivity])));
      reflexivity.
  - apply (proj2 (rehint_one_dimension image_200x100 (only_height 50 true)
                    1 50 ltac:(vm_compute; split; reflexivity)
                    ltac:(vm_compute; reflexivity)
                    ltac:(vm_compute; split; [discriminate|reflexivity])));
      reflexivity.
Defined.

(** C4 as stated fails on the image 200 x 100 with only
    [style.width = 2^1024] set: the height is positive and exactly one
    dimension is set, yet the scaled width does not fit a double and the
    call raises [OverflowError] where the claim has it return a hint. *)
Lemma rehint_one_dimension_counterexample :
  (0 < Image.height image_200x100)%N
  /\ Style.width (only_width (2 ^ 1024) false) = Some (2 ^ 1024)
  /\ Style.height (only_width (2 ^ 1024) false) = None
  /\ rehint_imageview (Some image_200x100) (only_width (2 ^ 1024) false) 1
     = Raise OverflowError.
Proof. repeat split; vm_compute; reflexivity. Qed.

(** Why the amended claim asks for a product that is not negative:
    [int] truncates towards zero, which is not the floor below zero. *)
Example rehint_truncates_towards_zero :
  rehint_imageview (Some {| Image.width := 2; Image.height := 1 |})
    (only_width (-5) false) 1
  = Return (Int (-5), Int (-2), Some two)
  /\ (q <- int_div_float (-5) two ;; ret (floor q)) = Return (-3).
Proof. split; vm_compute; reflexivity. Qed.

(** Why the width-only case asks for a positive image width: the ratio
    of an image of width 0 is 0.0, by which the scaled width is divided. *)
Example rehint_zero_width_raises :
  rehint_imageview (Some {| Image.width := 0; Image.height := 100 |})
    (only_width 50 false) 1
  = Raise ZeroDivisionError.
Proof. reflexivity. Qed.

(** ** No explicit dimension *)

(** C5: for an image and a style with neither dimension set, whenever
    the call returns the hint is
    [(image.width * scale, image.height * scale, ratio)], where [ratio] is
    the double [image.width / image.height] and both sizes are
    [at_least 0] instead when [style.flex] is true; the call raises
    exactly when that division raises; it does return for an image of
    positive height whose width is below [2^1023]; and for the image
    200 x 100, flex and scale 1 the hint is
    [(at_least 0, at_least 0, 2.0)]. *)
Theorem rehint_intrinsic_size :
  (forall (image : Image.t) (style : Style.t) (scale : Z),
      Style.width style = None -> Style.height style = None ->
      (forall width height ratio,
          rehint_imageview (Some image) style scale
          = Return (width, height, ratio) ->
          width = (if Style.flex style then at_least 0
                   else Int (Z.of_N (Image.width image) * scale))
          /\ height = (if Style.flex style then at_least 0
                       else Int (Z.of_N (Image.height image) * scale))
          /\ exists r,
               ratio = Some r
               /\ int_truediv (Z.of_N (Image.width image))
                              (Z.of_N (Image.height image)) = Return r)
      /\ (forall e,
             rehint_imageview (Some image) style scale = Raise e <->
             int_truediv (Z.of_N (Image.width image))
                         (Z.of_N (Image.height image)) = Raise e)
      /\ ((0 < Image.height image)%N ->
          Z.of_N (Image.width image) < 2 ^ 1023 ->
          exists ratio,
            int_truediv (Z.of_N (Image.width image))
                        (Z.of_N (Image.height image)) = Return ratio
            /\ rehint_imageview (Some image) style scale
               = Return (if Style.flex style then at_least 0
                         else Int (Z.of_N (Image.width image) * scale),
                         if Style.flex style then at_least 0
                         else Int (Z.of_N (Image.height image) * scale),
                         Some ratio)))
  /\ rehint_imageview (Some image_200x100) (no_dims true) 1
     = Return (at_least 0, at_least 0, Some two).
Proof.
  split; [|vm_compute; reflexivity].
  intros image style scale Sw Sh.
  rewrite (rehint_no_dims image style scale Sw Sh).
  split; [|split].
  - intros width height ratio H.
    destruct (int_truediv _ _) as [err|r]; [discriminate H|].
    cbn in H. injection H as <- <- <-.
    repeat split. exists r. split; reflexivity.
  - intros e.
    destruct (int_truediv _ _) as [err|r].
    + split; intros H; injection H as <-; reflexivity.
    + split; intros H; discriminate H.
  - intros Hh Hw.
    destruct (int_truediv_returns (Z.of_N (Image.width image))
                (Z.of_N (Image.height image)) ltac:(lia) ltac:(lia))
      as (ratio & R & _).
    exists ratio. rewrite R, bind_Return. split; reflexivity.
Qed.

Lemma rehint_intrinsic_size_witness :
  exists ratio,
    int_truediv (Z.of_N (Image.width image_200x100))
                (Z.of_N (Image.height image_200x100)) = Return ratio
    /\ rehint_imageview (Some image_200x100) (no_dims false) 3
       = Return (Int (Z.of_N (Image.width image_200x100) * 3),
                 Int (Z.of_N (Image.height image_200x100) * 3),
                 Some ratio).
Proof.
  apply (proj2 (proj2 (proj1 rehint_intrinsic_size image_200x100
                         (no_dims false) 3 eq_refl eq_refl)));
    vm_compute; reflexivity.
Defined.

(** C7: with no explicit dimension and no flex, the hinted width and
    height do not decrease when the scale grows: whenever the calls at
    [s1 < s2] return, they return integers in that order; a call raises at
    one scale exactly when it raises at the other; and the calls do return
    for an image of positive height and width below [2^1023]. *)
Theorem rehint_monotone_in_scale
    (image : Image.t) (style : Style.t) (s1 s2 : Z) :
  Style.width style = None -> Style.height style = None ->
  Style.flex style = false ->
  s1 < s2 ->
  (forall w1 h1 r1 w2 h2 r2,
      rehint_imageview (Some image) style s1 = Return (w1, h1, r1) ->
      rehint_imageview (Some image) style s2 = Return (w2, h2, r2) ->
      exists x1 y1 x2 y2,
        w1 = Int x1 /\ h1 = Int y1 /\ w2 = Int x2 /\ h2 = Int y2
        /\ x1 <= x2 /\ y1 <= y2)
  /\ (forall e, rehint_imageview (Some image) style s1 = Raise e <->
                rehint_imageview (Some image) style s2 = Raise e)
  /\ ((0 < Image.height image)%N ->
      Z.of_N (Image.width image) < 2 ^ 1023 ->
      exists res1 res2,
        rehint_imageview (Some image) style s1 = Return res1
        /\ rehint_imageview (Some image) style s2 = Return res2).
Proof.
  intros Sw Sh Sf Hs.
  rewrite !(rehint_no_dims image style _ Sw Sh), Sf.
  split; [|split].
  - destruct (int_truediv _ _) as [err|ratio]; [intros; discriminate|].
    intros w1 h1 r1 w2 h2 r2 H1 H2. cbn in H1, H2.
    injection H1 as <- <- <-. injection H2 as <- <- <-.
    do 4 eexists. repeat split; try reflexivity; nia.
  - destruct (int_truediv _ _) as [err|ratio].
    + intros e. reflexivity.
    + intros e; split; intros H; discriminate H.
  - intros Hh Hw.
    destruct (int_truediv_returns (Z.of_N (Image.width image))
                (Z.of_N (Image.height image)) ltac:(lia) ltac:(lia))
      as (ratio & R & _).
    rewrite R. do 2 eexists. split; reflexivity.
Qed.

Lemma rehint_monotone_in_scale_witness :
  exists x1 y1 x2 y2,
    Int 200 = Int x1 /\ Int 100 = Int y1
    /\ Int 400 = Int x2 /\ Int 200 = Int y2
    /\ x1 <= x2 /\ y1 <= y2.
Proof.
  apply (proj1 (rehint_monotone_in_scale image_200x100 (no_dims false) 1 2
                  eq_refl eq_refl eq_refl ltac:(lia))
           (Int 200) (Int 100) (Some two) (Int 400) (Int 200) (Some two));
    vm_compute; reflexivity.
Defined.

(** ** Aspect ratio of the hint *)

(** C6, as amended: for an image and a scaled width
    [style.width * scale] that are positive (the scaled width may be 0)
    and below [pixel_limit], with only [style.width] set and
    [style.flex] false, the call returns integers [width_out] and
    [height_out] with
    [0 <= width_out * image.height - height_out * image.width
       <= image.width]:
    the hinted height is the exact height
    [width_out * image.height / image.width] rounded down, or one less. *)
Theorem rehint_keeps_ratio
    (image : Image.t) (style : Style.t) (scale v : Z) :
  let iw := Z.of_N (Image.width image) in
  let ih := Z.of_N (Image.height image) in
  0 < iw < pixel_limit -> 0 < ih < pixel_limit ->
  0 <= v * scale < pixel_limit ->
  Style.width style = Some v -> Style.height style = None ->
  Style.flex style = false ->
  exists height_out ratio,
    rehint_imageview (Some image) style scale
    = Return (Int (v * scale), Int height_out, Some ratio)
    /\ 0 <= (v * scale) * ih - height_out * iw <= iw.
Proof.
  intros iw ih Hw Hh Hn Sw Sh Sf.
  rewrite (rehint_only_width image style scale v Sw Sh), Sf. fold iw ih.
  set (n := v * scale) in *.
  pose proof (digits_below_pixel_limit iw Hw) as Dw.
  pose proof (digits_below_pixel_limit ih Hh) as Dh.
  unfold pixel_limit in *.
  destruct (int_truediv_accurate iw ih ltac:(lia) ltac:(lia) ltac:(lia))
    as (mr & er & R & Bmr & Ber & R1 & R2).
  rewrite R, bind_Return.
  destruct (Z.eq_dec n 0) as [Hz|Hnz].
  - rewrite Hz. exists 0, (S754_finite false mr er).
    split; [reflexivity|]. lia.
  - destruct (of_int_exact n ltac:(lia)) as (mn & en & Cn & Bmn & Ben & Vn).
    unfold int_div_float. rewrite Cn, bind_Return.
    unfold truediv. simpl is_zero.
    destruct (SFdiv_accurate mn mr en er Bmn Bmr ltac:(lia))
      as (mg & eg & G & G1 & G2).
    rewrite G, bind_Return.
    destruct (to_int_bounds mg eg) as (h & T & T1 & T2).
    rewrite T, bind_Return.
    exists h, (S754_finite false mr er). split; [reflexivity|].
    pose proof (F2Q_pos mr er) as Pr. pose proof (F2Q_pos mg eg) as Pg.
    rewrite Vn in G1, G2.
    assert (PA : (0 < inject_Z iw)%Q) by (rewrite <- (Zlt_Qlt 0); lia).
    assert (PB : (0 < inject_Z ih)%Q) by (rewrite <- (Zlt_Qlt 0); lia).
    destruct (two_roundings (inject_Z iw) (inject_Z ih) (inject_Z n)
                (inject_Z h) _ _ PA PB Pr Pg R1 R2 G1 G2 T1 T2) as [P1 P2].
    unfold unit_roundoff in P1, P2.
    change (2 ^ 52)%positive with 4503599627370496%positive in P1, P2.
    assert (Z1 : h * iw * (2 ^ 52 - 1) <= n * ih * (2 ^ 52 + 1)).
    { rewrite Zle_Qle, !inject_Z_mult.
      change (inject_Z (2 ^ 52 - 1)) with (4503599627370495 # 1)%Q.
      change (inject_Z (2 ^ 52 + 1)) with (4503599627370497 # 1)%Q.
      lra. }
    assert (Z2 : n * ih * (2 ^ 52 - 1) < (h + 1) * iw * (2 ^ 52 + 1)).
    { rewrite Zlt_Qlt, !inject_Z_mult, inject_Z_plus.
      change (inject_Z (2 ^ 52 - 1)) with (4503599627370495 # 1)%Q.
      change (inject_Z (2 ^ 52 + 1)) with (4503599627370497 # 1)%Q.
      change (inject_Z 1) with 1%Q.
      lra. }
    assert (Y : 0 < n * ih < 2 ^ 50) by nia.
    nia.
Qed.

Lemma rehint_keeps_ratio_witness :
  exists height_out ratio,
    rehint_imageview (Some image_200x100) (only_width 51 false) 1
    = Return (Int (51 * 1), Int height_out, Some ratio)
    /\ 0 <= (51 * 1) * Z.of_N (Image.height image_200x100)
            - height_out * Z.of_N (Image.width image_200x100)
       <= Z.of_N (Image.width image_200x100).
Proof.
  apply (rehint_keeps_ratio image_200x100 (only_width 51 false) 1 51);
    vm_compute; try split; try reflexivity; discriminate.
Defined.

(** C6 as stated fails twice over.  With the image 200 x 100 and width 51
    the hint is [(51, 25)], and [25 * 200] differs from [51 * 100] by 100,
    not by 1: the tolerance is one unit of height, that is [image.width]
    in this product.  And with [style.flex] true the hinted height is not
    a number at all, but [at_least 0]. *)
Lemma rehint_keeps_ratio_counterexample :
  rehint_imageview (Some image_200x100) (only_width 51 false) 1
  = Return (Int 51, Int 25, Some two)
  /\ 1 < Z.abs (25 * 200 - 51 * 100)
  /\ rehint_imageview (Some image_200x100) (only_width 50 true) 1
     = Return (Int 50, at_least 0, Some two).
Proof. repeat split; vm_compute; reflexivity. Qed.

(** The lower end of the tolerance is reached: for an image 1 x 75 and
    width 3 the exact height is 225 and the hint is 224, because
    [1 / 75] rounds up and [3 / (1 / 75)] then falls just short of 225. *)
Example rehint_one_less :
  exists ratio,
    rehint_imageview (Some {| Image.width := 1; Image.height := 75 |})
      (only_width 3 false) 1
    = Return (Int 3, Int 224, Some ratio).
Proof. eexists. vm_compute. reflexivity. Qed.

(** ** Totality *)

(** C8, as amended: the call returns, raising nothing, when the image is
    [None], or has positive width and height below [magnitude_limit]
    while the style dimension that gets multiplied or divided by the
    aspect ratio (the only one set, if one is) has a product with the
    scale below [magnitude_limit] in magnitude.  The function of the model
    is pure: it has no state to change. *)
Theorem rehint_returns
    (image : option Image.t) (style : Style.t) (scale : Z) :
  match image with
  | Some image =>
      0 < Z.of_N (Image.width image) < magnitude_limit
      /\ 0 < Z.of_N (Image.height image) < magnitude_limit
  | None => True
  end ->
  match Style.width style, Style.height style with
  | Some w, None => Z.abs (w * scale) < magnitude_limit
  | None, Some h => Z.abs (h * scale) < magnitude_limit
  | _, _ => True
  end ->
  exists width height ratio,
    rehint_imageview image style scale = Return (width, height, ratio).
Proof.
  intros Himg Hst. destruct image as [img|]; [|repeat eexists; reflexivity].
  destruct Himg as [Hw Hh].
  destruct (ratio_normal _ _ Hw Hh) as (m & e & R & Bm & Be).
  destruct (Style.width style) as [w|] eqn:Sw;
    destruct (Style.height style) as [h|] eqn:Sh.
  - rewrite (rehint_both_set img style scale w h Sw Sh). repeat eexists.
  - rewrite (rehint_only_width img style scale w Sw Sh), R, bind_Return.
    destruct (int_div_float_returns (w * scale) m e Hst Bm Be)
      as (q & Q & Hq).
    assert (F : is_finite q = true)
      by (destruct Hq as [->|(mq & eq & ->)]; reflexivity).
    destruct (to_int_finite q F) as (n & T).
    rewrite Q, bind_Return, T, bind_Return. repeat eexists.
  - rewrite (rehint_only_height img style scale h Sw Sh), R, bind_Return.
    destruct (int_mul_float_returns (h * scale) m e Hst Bm Be)
      as (p & P & Hp).
    assert (F : is_finite p = true)
      by (destruct Hp as [->|(mp & ep & ->)]; reflexivity).
    destruct (to_int_finite p F) as (n & T).
    rewrite P, bind_Return, T, bind_Return. repeat eexists.
  - rewrite (rehint_no_dims img style scale Sw Sh), R, bind_Return.
    repeat eexists.
Qed.

Lemma rehint_returns_witness :
  exists width height ratio,
    rehint_imageview (Some image_200x100) (only_height (-30) true) 3
    = Return (width, height, ratio).
Proof.
  apply (rehint_returns (Some image_200x100) (only_height (-30) true) 3);
    vm_compute; try split; try split; reflexivity.
Defined.

(** C8 as stated fails on inputs with positive image dimensions: a scaled
    style width of [2^1024] is too large to convert to a double; an image
    [2^1024] wide and 1 high has a ratio too large for a double; and an
    image 1 wide and [2^1080] high has a ratio that underflows to 0.0, by
    which the scaled width is then divided. *)
Lemma rehint_returns_counterexample :
  rehint_imageview (Some image_200x100) (only_width (2 ^ 1024) false) 1
  = Raise OverflowError
  /\ rehint_imageview (Some image_wide) (only_height 1 false) 1
     = Raise OverflowError
  /\ rehint_imageview (Some image_tall) (only_width 1 false) 1
     = Raise ZeroDivisionError.
Proof. repeat split; vm_compute; reflexivity. Qed.

(** ** The [enabled] property *)

(** C10: [enabled] always reads [True], and assigning to it leaves the
    widget as it was (so [enabled] still reads [True] afterwards). *)
Theorem enabled_always_true
    (Base object : Type) (self : ImageView.t Base) (value : object) :
  ImageView.enabled self = true
  /\ ImageView.set_enabled self value = self
  /\ ImageView.enabled (ImageView.set_enabled self value) = true.
Proof. repeat split. Qed.

(** * Further properties of [rehint_imageview] *)

(** ** What is returned *)

Section Inversion.

Lemma bind_inv {A B : Type} (c : py A) (f : A -> py B) (b : B) :
  bind c f = Return b -> exists a, c = Return a /\ f a = Return b.
Proof.
  destruct c as [e|a]; [discriminate|]. intros H. now exists a.
Qed.

Lemma bind_Raise_inv {A B : Type} (c : py A) (f : A -> py B) (e : pyerr) :
  bind c f = Raise e ->
  c = Raise e \/ exists a, c = Return a /\ f a = Raise e.
Proof.
  destruct c as [e'|a]; intros H;
    [left; injection H as <-; reflexivity|right; now exists a].
Qed.

End Inversion.

(** X1: an image of height 0 makes the call raise [ZeroDivisionError] as
    soon as one style dimension is unset, whatever the width, the other
    style dimension, the flex flag and the scale. *)
Theorem rehint_zero_height_error
    (image : Image.t) (style : Style.t) (scale : Z) :
  Image.height image = 0%N ->
  Style.width style = None \/ Style.height style = None ->
  rehint_imageview (Some image) style scale = Raise ZeroDivisionError.
Proof.
  intros Hh Hs. unfold rehint_imageview, int_truediv. rewrite Hh.
  destruct (Style.width style), (Style.height style);
    try reflexivity; destruct Hs; discriminate.
Qed.

Lemma rehint_zero_height_error_witness :
  rehint_imageview (Some {| Image.width := 200; Image.height := 0 |})
    (only_height 30 true) 2
  = Raise ZeroDivisionError.
Proof.
  apply (rehint_zero_height_error {| Image.width := 200; Image.height := 0 |}
           (only_height 30 true) 2 eq_refl (or_introl eq_refl)).
Defined.

(** X2: whenever the call returns for an image, a style dimension that is
    set comes back as the integer [dimension * scale]: the image, the flex
    flag and the float arithmetic never touch a pinned axis. *)
Theorem rehint_explicit_dimension_kept
    (image : Image.t) (style : Style.t) (scale : Z)
    (width height : hint) (ratio : option float) :
  rehint_imageview (Some image) style scale = Return (width, height, ratio) ->
  (forall w, Style.width style = Some w -> width = Int (w * scale))
  /\ (forall h, Style.height style = Some h -> height = Int (h * scale)).
Proof.
  intros H.
  destruct (Style.width style) as [w|] eqn:Sw;
    destruct (Style.height style) as [h|] eqn:Sh.
  - rewrite (rehint_both_set image style scale w h Sw Sh) in H.
    injection H as <- <- <-. split; intros ? [= <-]; reflexivity.
  - rewrite (rehint_only_width image style scale w Sw Sh) in H.
    apply bind_inv in H as (r & _ & H). apply bind_inv in H as (q & _ & H).
    apply bind_inv in H as (n & _ & H). injection H as <- <- <-.
    split; [intros ? [= <-]; reflexivity|intros ? [=]].
  - rewrite (rehint_only_height image style scale h Sw Sh) in H.
    apply bind_inv in H as (r & _ & H). apply bind_inv in H as (q & _ & H).
    apply bind_inv in H as (n & _ & H). injection H as <- <- <-.
    split; [intros ? [=]|intros ? [= <-]; reflexivity].
  - split; intros ? [=].
Qed.

Lemma rehint_explicit_dimension_kept_witness : Int 50 = Int (50 * 1).
Proof.
  apply (proj1 (rehint_explicit_dimension_kept image_200x100
                  (only_width 50 true) 1 (Int 50) (at_least 0) (Some two)
                  ltac:(vm_compute; reflexivity)) 50 eq_refl).
Defined.

(** X3: whenever the call returns, the aspect ratio is [None] exactly when
    there is no image or both style dimensions are set; otherwise it is
    the double [image.width / image.height], whatever the style and the
    scale. *)
Theorem rehint_ratio_characterised
    (image : option Image.t) (style : Style.t) (scale : Z)
    (width height : hint) (ratio : option float) :
  rehint_imageview image style scale = Return (width, height, ratio) ->
  (ratio = None <->
   image = None
   \/ (exists w h, Style.width style = Some w /\ Style.height style = Some h))
  /\ (forall r img, ratio = Some r -> image = Some img ->
        int_truediv (Z.of_N (Image.width img)) (Z.of_N (Image.height img))
        = Return r).
Proof.
  intros H. destruct image as [img|].
  2:{ injection H as <- <- <-. split; [tauto|discriminate]. }
  destruct (Style.width style) as [w|] eqn:Sw;
    destruct (Style.height style) as [h|] eqn:Sh.
  - rewrite (rehint_both_set img style scale w h Sw Sh) in H.
    injection H as <- <- <-. split; [|discriminate].
    split; [intros _; right; eauto|reflexivity].
  - rewrite (rehint_only_width img style scale w Sw Sh) in H.
    apply bind_inv in H as (r & R & H). apply bind_inv in H as (q & _ & H).
    apply bind_inv in H as (n & _ & H). injection H as <- <- <-.
    split.
    + split; [discriminate|].
      intros [E|(w' & h' & _ & E)]; discriminate.
    + intros r' img' [= <-] [= <-]. exact R.
  - rewrite (rehint_only_height img style scale h Sw Sh) in H.
    apply bind_inv in H as (r & R & H). apply bind_inv in H as (q & _ & H).
    apply bind_inv in H as (n & _ & H). injection H as <- <- <-.
    split.
    + split; [discriminate|].
      intros [E|(w' & h' & E & _)]; discriminate.
    + intros r' img' [= <-] [= <-]. exact R.
  - rewrite (rehint_no_dims img style scale Sw Sh) in H.
    apply bind_inv in H as (r & R & H). injection H as <- <- <-.
    split.
    + split; [discriminate|].
      intros [E|(w' & h' & E & _)]; discriminate.
    + intros r' img' [= <-] [= <-]. exact R.
Qed.

Lemma rehint_ratio_characterised_witness :
  int_truediv (Z.of_N (Image.width image_200x100))
              (Z.of_N (Image.height image_200x100))
  = Return two.
Proof.
  apply (proj2 (rehint_ratio_characterised (Some image_200x100)
                  (only_height 30 false) 2 (Int 120) (Int 60) (Some two)
                  ltac:(vm_compute; reflexivity)) two image_200x100
           eq_refl eq_refl).
Defined.

(** ** Signs *)

Section Signs.

(** Rounding keeps the sign it is given. *)
Lemma binary_round_aux_sign (sx : bool) (mx ex : Z) (lx : location) :
  match binary_round_aux prec emax sx mx ex lx with
  | S754_zero s | S754_finite s _ _ | S754_infinity s => s = sx
  | S754_nan => True
  end.
Proof.
  unfold binary_round_aux.
  destruct (shr_fexp prec emax mx ex lx) as [mrs' e'].
  destruct (shr_fexp prec emax _ e' loc_Exact) as [mrs'' e''].
  destruct (shr_m mrs''); try reflexivity; try exact I.
  destruct (e'' <=? emax - prec); reflexivity.
Qed.

Lemma binary_round_aux_not_negative (mx ex : Z) (lx : location) :
  not_negative (binary_round_aux prec emax false mx ex lx).
Proof.
  pose proof (binary_round_aux_sign false mx ex lx) as S.
  destruct (binary_round_aux prec emax false mx ex lx); simpl; auto.
Qed.

Lemma int_truediv_not_negative (a b : Z) (x : float) :
  0 <= a -> 0 <= b -> int_truediv a b = Return x -> not_negative x.
Proof.
  intros Ha Hb. unfold int_truediv.
  destruct (Z.eqb_spec b 0) as [->|Hb0]; [discriminate|].
  rewrite (proj2 (Z.ltb_ge b 0)) by lia.
  destruct (Z.eqb_spec a 0) as [->|Ha0]; [intros [= <-]; reflexivity|].
  rewrite (proj2 (Z.ltb_ge a 0)) by lia. simpl xorb.
  destruct (SFdiv_core_binary prec emax (Z.abs a) 0 (Z.abs b) 0) as [[q e] l].
  pose proof (binary_round_aux_not_negative q e l) as S.
  destruct (binary_round_aux prec emax false q e l);
    intros [= <-]; exact S.
Qed.

Lemma of_int_not_negative (n : Z) (x : float) :
  0 <= n -> of_int n = Return x -> not_negative x.
Proof.
  intros Hn. unfold of_int.
  destruct n as [|p|p]; [intros [= <-]; reflexivity| |lia].
  simpl binary_normalize. unfold binary_round.
  destruct (shl_align p 0 _) as [mz ez].
  pose proof (binary_round_aux_not_negative (Zpos mz) ez loc_Exact) as S.
  destruct (binary_round_aux prec emax false (Zpos mz) ez loc_Exact);
    intros [= <-]; exact S.
Qed.

Lemma SFdiv_not_negative (x y : float) :
  not_negative x -> not_negative y -> not_negative (SFdiv prec emax x y).
Proof.
  destruct x as [sx|sx| |sx mx ex], y as [sy|sy| |sy my ey]; simpl;
    intros Hx Hy; subst; try reflexivity; try exact I.
  destruct (SFdiv_core_binary prec emax (Zpos mx) ex (Zpos my) ey)
    as [[q e] l].
  apply binary_round_aux_not_negative.
Qed.

Lemma SFmul_not_negative (x y : float) :
  not_negative x -> not_negative y -> not_negative (SFmul prec emax x y).
Proof.
  destruct x as [sx|sx| |sx mx ex], y as [sy|sy| |sy my ey]; simpl;
    intros Hx Hy; subst; try reflexivity; try exact I.
  apply binary_round_aux_not_negative.
Qed.

Lemma to_int_not_negative (x : float) (n : Z) :
  not_negative x -> to_int x = Return n -> 0 <= n.
Proof.
  destruct x as [s|s| |s m e]; simpl; intros Hx; try discriminate.
  - intros [= <-]. lia.
  - subst s. intros [= <-]. simpl. apply Z.shiftl_nonneg. lia.
Qed.

Lemma int_div_float_not_negative (n : Z) (y q : float) :
  0 <= n -> not_negative y -> int_div_float n y = Return q -> not_negative q.
Proof.
  intros Hn Hy H. unfold int_div_float in H.
  apply bind_inv in H as (x & X & H).
  unfold truediv in H. destruct (is_zero y); [discriminate|].
  injection H as <-. apply SFdiv_not_negative; [|assumption].
  now apply (of_int_not_negative n).
Qed.

Lemma int_mul_float_not_negative (n : Z) (y p : float) :
  0 <= n -> not_negative y -> int_mul_float n y = Return p -> not_negative p.
Proof.
  intros Hn Hy H. unfold int_mul_float in H.
  apply bind_inv in H as (x & X & H).
  injection H as <-. apply SFmul_not_negative; [|assumption].
  now apply (of_int_not_negative n).
Qed.

End Signs.

(** X4: with a scale and style dimensions that are not negative, no hint
    the call returns carries a negative number, and the aspect ratio it
    returns is not negative, for every image and without any bound on the
    magnitudes. *)
Theorem rehint_not_negative
    (image : option Image.t) (style : Style.t) (scale : Z)
    (width height : hint) (ratio : option float) :
  0 <= scale ->
  (forall w, Style.width style = Some w -> 0 <= w) ->
  (forall h, Style.height style = Some h -> 0 <= h) ->
  rehint_imageview image style scale = Return (width, height, ratio) ->
  0 <= hint_value width /\ 0 <= hint_value height
  /\ (forall r, ratio = Some r -> not_negative r).
Proof.
  intros Hs Hw Hh H. destruct image as [img|].
  2:{ injection H as <- <- <-. repeat split; simpl; try lia. discriminate. }
  destruct (Style.width style) as [w|] eqn:Sw;
    destruct (Style.height style) as [h|] eqn:Sh.
  - rewrite (rehint_both_set img style scale w h Sw Sh) in H.
    injection H as <- <- <-. specialize (Hw w eq_refl).
    specialize (Hh h eq_refl). simpl. repeat split; try nia. discriminate.
  - rewrite (rehint_only_width img style scale w Sw Sh) in H.
    specialize (Hw w eq_refl).
    apply bind_inv in H as (r & R & H). apply bind_inv in H as (q & Q & H).
    apply bind_inv in H as (n & T & H). injection H as <- <- <-.
    assert (Nr : not_negative r)
      by (apply (int_truediv_not_negative _ _ r) in R; [assumption|lia|lia]).
    assert (Nq : not_negative q)
      by (apply (int_div_float_not_negative (w * scale) r);
          [nia| |]; assumption).
    pose proof (to_int_not_negative q n Nq T).
    repeat split; [simpl; nia|destruct (Style.flex style); simpl; lia|].
    intros r' [= <-]. exact Nr.
  - rewrite (rehint_only_height img style scale h Sw Sh) in H.
    specialize (Hh h eq_refl).
    apply bind_inv in H as (r & R & H). apply bind_inv in H as (p & P & H).
    apply bind_inv in H as (n & T & H). injection H as <- <- <-.
    assert (Nr : not_negative r)
      by (apply (int_truediv_not_negative _ _ r) in R; [assumption|lia|lia]).
    assert (Np : not_negative p)
      by (apply (int_mul_float_not_negative (h * scale) r);
          [nia| |]; assumption).
    pose proof (to_int_not_negative p n Np T).
    repeat split; [destruct (Style.flex style); simpl; lia|simpl; nia|].
    intros r' [= <-]. exact Nr.
  - rewrite (rehint_no_dims img style scale Sw Sh) in H.
    apply bind_inv in H as (r & R & H). injection H as <- <- <-.
    assert (Nr : not_negative r)
      by (apply (int_truediv_not_negative _ _ r) in R; [assumption|lia|lia]).
    repeat split; try (destruct (Style.flex style); simpl; nia).
    intros r' [= <-]. exact Nr.
Qed.

Lemma rehint_not_negative_witness :
  0 <= hint_value (Int 3) /\ 0 <= hint_value (Int 224)
  /\ (forall r,
         Some (S754_finite false 7686143364045647 (-59)) = Some r ->
         not_negative r).
Proof.
  apply (rehint_not_negative
           (Some {| Image.width := 1; Image.height := 75 |})
           (only_width 3 false) 1 (Int 3) (Int 224)
           (Some (S754_finite false 7686143364045647 (-59)))).
  - lia.
  - intros w E. injection E as <-. lia.
  - intros h E. discriminate E.
  - vm_compute. reflexivity.
Defined.

(** ** Errors and the ends of the range *)

Section Range.

(** [float(n)] returns a finite double below [2^1023] in magnitude. *)
Lemma of_int_returns (n : Z) :
  Z.abs n < 2 ^ 1023 ->
  exists x, of_int n = Return x /\ is_finite x = true.
Proof.
  intros Hn. unfold of_int.
  destruct n as [|p|p]; [eexists; split; reflexivity| |];
    simpl binary_normalize;
    (assert (D : Zdigits2 (Zpos p) <= 1023)
       by (apply Zdigits2_le; [lia|split; [lia|exact Hn]]));
    [destruct (binary_round_normal false p D) as (m & e & R & _)
    |destruct (binary_round_normal true p D) as (m & e & R & _)];
    rewrite R; eexists; split; reflexivity.
Qed.

(** Overflow: an integer mantissa of [2^1024] or more rounds to an
    infinity. *)
Lemma binary_round_aux_overflow (sx : bool) (mx : Z) (lx : location) :
  2 ^ 1024 <= mx ->
  binary_round_aux prec emax sx mx 0 lx = S754_infinity sx.
Proof.
  intros Hmx. unfold binary_round_aux.
  assert (Hpos : 0 < mx) by (pose proof (pow2_pos 1024); lia).
  pose proof (shr_fexp_spec mx 0 lx ltac:(lia)) as S.
  destruct (shr_fexp prec emax mx 0 lx) as [mrs' e'].
  simpl in S. destruct S as [Sm Se]. rewrite fexp_eq in Sm, Se.
  set (d := Zdigits2 mx) in *.
  assert (Hd : 1025 <= d) by (apply Zdigits2_ge; assumption).
  replace (Z.max 0 (Z.max (d + 0 - 53) (-1074) - 0)) with (d - 53) in *
    by lia.
  pose proof (Zdigits2_bounds mx Hpos) as B. fold d in B.
  set (P := 2 ^ (d - 53)) in *.
  assert (HP : 0 < P) by (apply pow2_pos; lia).
  assert (E1 : 2 ^ (d - 1) = 2 ^ 52 * P).
  { unfold P. rewrite <- pow2_split by lia. f_equal. lia. }
  assert (E2 : 2 ^ d = 2 ^ 53 * P).
  { unfold P. rewrite <- pow2_split by lia. f_equal. lia. }
  pose proof (Z.div_mod mx P ltac:(lia)) as DM.
  pose proof (Z.mod_pos_bound mx P HP) as MB.
  set (m1 := mx / P) in *.
  assert (Hm1 : 2 ^ 52 <= m1 < 2 ^ 53) by nia.
  set (m2 := round_nearest_even (shr_m mrs') (loc_of_shr_record mrs')).
  assert (Hm2 : m2 = m1 \/ m2 = m1 + 1).
  { unfold m2. rewrite Sm. apply round_nearest_even_cases. }
  pose proof (shr_fexp_spec m2 e' loc_Exact ltac:(lia)) as S2.
  destruct (shr_fexp prec emax m2 e' loc_Exact) as [mrs'' e''].
  simpl in S2. destruct S2 as [Sm2 Se2]. rewrite fexp_eq in Sm2, Se2.
  assert (D2 : 53 <= Zdigits2 m2 <= 54).
  { split; [apply Zdigits2_ge|apply Zdigits2_le]; simpl; lia. }
  set (k2 := Z.max 0 (Z.max (Zdigits2 m2 + e' - 53) (-1074) - e')) in *.
  assert (Hk2 : 0 <= k2 <= 1) by lia.
  assert (Hm3 : 0 < shr_m mrs'').
  { rewrite Sm2.
    assert (2 ^ 51 <= m2 / 2 ^ k2); [|lia].
    apply Z.div_le_lower_bound; [apply pow2_pos; lia|].
    assert (2 ^ k2 <= 2 ^ 1) by (apply Z.pow_le_mono_r; lia).
    change (2 ^ 1) with 2 in *. pose proof (pow2_pos k2 ltac:(lia)). nia. }
  destruct (shr_m mrs'') as [|m|m]; try lia.
  replace (e'' <=? emax - prec) with false; [reflexivity|].
  symmetry. apply Z.leb_gt. unfold emax, prec. lia.
Qed.

Lemma binary_round_overflow (s : bool) (p : positive) :
  2 ^ 1024 <= Zpos p -> binary_round prec emax s p 0 = S754_infinity s.
Proof.
  intros Hp. unfold binary_round.
  assert (D : 1025 <= Zdigits2 (Zpos p))
    by (apply Zdigits2_ge; [lia|exact Hp]).
  pose proof (shl_align_spec p 0 (fexp prec emax (Zpos (digits2_pos p) + 0)))
    as S.
  destruct (shl_align p 0 (fexp prec emax (Zpos (digits2_pos p) + 0)))
    as [mz ez].
  destruct S as [Se Sm]. rewrite fexp_eq in Se.
  change (Zpos (digits2_pos p)) with (Zdigits2 (Zpos p)) in Se.
  assert (Ez : ez = 0) by lia. clear Se. rewrite Ez in *.
  rewrite Z.sub_diag, Z.pow_0_r, Z.mul_1_r in Sm.
  apply binary_round_aux_overflow. rewrite Sm. exact Hp.
Qed.

(** [float(n)] raises for magnitudes of [2^1024] or more. *)
Lemma of_int_overflow (n : Z) :
  2 ^ 1024 <= Z.abs n -> of_int n = Raise OverflowError.
Proof.
  intros Hn. unfold of_int.
  assert (P1024 : 0 < 2 ^ 1024) by (apply pow2_pos; lia).
  destruct n as [|p|p]; [simpl in Hn; lia| |];
    simpl binary_normalize; rewrite binary_round_overflow by exact Hn;
    reflexivity.
Qed.

(** [a / b] raises when the quotient is [2^1024] or more. *)
Lemma int_truediv_overflow (a b : Z) :
  0 < b -> 2 ^ 1024 * b <= a -> int_truediv a b = Raise OverflowError.
Proof.
  intros Hb Ha.
  assert (P1024 : 0 < 2 ^ 1024) by (apply pow2_pos; lia).
  assert (Hpos : 0 < a) by nia.
  unfold int_truediv. positive_operands. simpl xorb.
  unfold SFdiv_core_binary. rewrite fexp_eq.
  set (da := Zdigits2 a) in *. set (db := Zdigits2 b) in *.
  pose proof (Zdigits2_bounds b Hb) as Bb. fold db in Bb.
  pose proof (Zdigits2_pos b Hb) as Pb. fold db in Pb.
  assert (Hd : 1024 + db <= da).
  { apply Zdigits2_ge; [assumption|].
    replace (1024 + db - 1) with (1024 + (db - 1)) by lia.
    rewrite pow2_split by lia. nia. }
  rewrite !Z.add_0_r. replace (0 - 0) with 0 by lia.
  replace (Z.min (Z.max (da - db - 53) (-1074)) 0) with 0 by lia.
  simpl (0 - 0). cbv iota. rewrite div_eucl_div.
  rewrite binary_round_aux_overflow; [reflexivity|].
  apply Z.div_le_lower_bound; lia.
Qed.

(** Rounding a mantissa that is not negative never gives a NaN. *)
Lemma binary_round_aux_not_nan (sx : bool) (mx ex : Z) (lx : location) :
  0 <= mx -> binary_round_aux prec emax sx mx ex lx <> S754_nan.
Proof.
  intros Hmx. unfold binary_round_aux.
  pose proof (shr_fexp_spec mx ex lx Hmx) as S.
  destruct (shr_fexp prec emax mx ex lx) as [mrs' e'].
  simpl in S. destruct S as [Sm Se].
  set (m2 := round_nearest_even (shr_m mrs') (loc_of_shr_record mrs')).
  assert (Hm2 : 0 <= m2).
  { assert (0 <= shr_m mrs')
      by (rewrite Sm; apply Z.div_pos; [lia|apply pow2_pos; lia]).
    destruct (round_nearest_even_cases (shr_m mrs') (loc_of_shr_record mrs'));
      unfold m2; lia. }
  pose proof (shr_fexp_spec m2 e' loc_Exact Hm2) as S2.
  destruct (shr_fexp prec emax m2 e' loc_Exact) as [mrs'' e''].
  simpl in S2. destruct S2 as [Sm2 Se2].
  assert (Hm3 : 0 <= shr_m mrs'')
    by (rewrite Sm2; apply Z.div_pos; [lia|apply pow2_pos; lia]).
  destruct (shr_m mrs'') as [|m|m]; try lia; [discriminate|].
  destruct (e'' <=? emax - prec); discriminate.
Qed.

(** What [float(n)] returns is finite. *)
Lemma of_int_finite (n : Z) (x : float) :
  of_int n = Return x -> is_finite x = true.
Proof.
  unfold of_int. destruct n as [|p|p]; simpl binary_normalize;
    [intros [= <-]; reflexivity| |]; unfold binary_round;
    destruct (shl_align p 0 _) as [mz ez];
    match goal with
    | |- context [binary_round_aux prec emax ?s ?m ?e ?l] =>
        pose proof (binary_round_aux_not_nan s m e l ltac:(lia)) as N;
        destruct (binary_round_aux prec emax s m e l)
    end; intros [= <-]; try reflexivity; now elim N.
Qed.

(** What [a / b] returns is finite. *)
Lemma int_truediv_finite (a b : Z) (x : float) :
  int_truediv a b = Return x -> is_finite x = true.
Proof.
  unfold int_truediv.
  destruct (Z.eqb_spec b 0) as [->|Hb]; [discriminate|].
  destruct (a =? 0); [intros [= <-]; reflexivity|].
  unfold SFdiv_core_binary.
  set (s := 0 - 0 - _).
  set (m' := match s with 0 => Z.abs a | Z.pos _ => Z.shiftl (Z.abs a) s
                     | Z.neg _ => 0 end).
  assert (Hm' : 0 <= m').
  { unfold m'. destruct s; try lia. apply Z.shiftl_nonneg. lia. }
  rewrite div_eucl_div.
  assert (Hq : 0 <= m' / Z.abs b) by (apply Z.div_pos; lia).
  match goal with
  | |- context [binary_round_aux prec emax ?s ?m ?e ?l] =>
      pose proof (binary_round_aux_not_nan s m e l Hq) as N;
      destruct (binary_round_aux prec emax s m e l)
  end; intros [= <-]; try reflexivity; now elim N.
Qed.

Lemma SFdiv_not_nan (x y : float) :
  is_finite x = true -> is_finite y = true -> is_zero y = false ->
  SFdiv prec emax x y <> S754_nan.
Proof.
  destruct x as [sx|sx| |sx mx ex], y as [sy|sy| |sy my ey];
    try discriminate; intros _ _ _; simpl; try discriminate.
  unfold SFdiv_core_binary.
  set (s := ex - ey - _).
  set (m' := match s with 0 => Zpos mx | Z.pos _ => Z.shiftl (Zpos mx) s
                     | Z.neg _ => 0 end).
  assert (Hm' : 0 <= m').
  { unfold m'. destruct s; try lia. apply Z.shiftl_nonneg. lia. }
  rewrite div_eucl_div.
  apply binary_round_aux_not_nan. apply Z.div_pos; lia.
Qed.

Lemma SFmul_not_nan (x y : float) :
  is_finite x = true -> is_finite y = true ->
  SFmul prec emax x y <> S754_nan.
Proof.
  destruct x as [sx|sx| |sx mx ex], y as [sy|sy| |sy my ey];
    try discriminate; intros _ _; simpl; try discriminate.
  apply binary_round_aux_not_nan. lia.
Qed.

Lemma to_int_raises (x : float) (e : pyerr) :
  x <> S754_nan -> to_int x = Raise e -> e = OverflowError.
Proof.
  destruct x; simpl; intros N H; try discriminate H;
    [now injection H|now elim N].
Qed.

Lemma of_int_raises (n : Z) (e : pyerr) :
  of_int n = Raise e -> e = OverflowError.
Proof.
  unfold of_int. destruct (binary_normalize prec emax n 0 false);
    intros H; try discriminate H. now injection H.
Qed.

Lemma int_truediv_raises (a b : Z) (e : pyerr) :
  int_truediv a b = Raise e -> e = ZeroDivisionError \/ e = OverflowError.
Proof.
  unfold int_truediv. destruct (b =? 0); [intros [= <-]; auto|].
  destruct (a =? 0); [discriminate|].
  destruct (SFdiv_core_binary prec emax (Z.abs a) 0 (Z.abs b) 0) as [[q e'] l].
  destruct (binary_round_aux prec emax _ q e' l);
    intros H; try discriminate H. injection H as <-. auto.
Qed.

End Range.

(** X5: for an image of width 0 and positive height, and a scaled style
    dimension below [2^1023] in magnitude: with only [style.width] set
    the call raises [ZeroDivisionError] (the ratio is 0.0), flex or not;
    with only [style.height] set it returns the width hint 0
    ([at_least 0] under flex), the scaled height and the ratio 0.0. *)
Theorem rehint_zero_width
    (image : Image.t) (style : Style.t) (scale v : Z) :
  Image.width image = 0%N -> (0 < Image.height image)%N ->
  Z.abs (v * scale) < 2 ^ 1023 ->
  (Style.width style = Some v -> Style.height style = None ->
   rehint_imageview (Some image) style scale = Raise ZeroDivisionError)
  /\ (Style.width style = None -> Style.height style = Some v ->
      rehint_imageview (Some image) style scale
      = Return (if Style.flex style then at_least 0 else Int 0,
                Int (v * scale), Some (S754_zero false))).
Proof.
  intros Hw Hh Hn.
  assert (R : int_truediv (Z.of_N (Image.width image))
                (Z.of_N (Image.height image)) = Return (S754_zero false))
    by (rewrite Hw; apply ratio_zero; lia).
  destruct (of_int_returns (v * scale) Hn) as (x & X & F).
  split; intros Sw Sh.
  - rewrite (rehint_only_width image style scale v Sw Sh), R, bind_Return.
    unfold int_div_float. rewrite X. reflexivity.
  - rewrite (rehint_only_height image style scale v Sw Sh), R, bind_Return.
    unfold int_mul_float. rewrite X, bind_Return.
    destruct x as [s|s| |s m e]; try discriminate F; reflexivity.
Qed.

Lemma rehint_zero_width_witness :
  rehint_imageview (Some {| Image.width := 0; Image.height := 100 |})
    (only_width 50 true) 2
  = Raise ZeroDivisionError
  /\ rehint_imageview (Some {| Image.width := 0; Image.height := 100 |})
       (only_height (-50) false) 2
     = Return (Int 0, Int (-50 * 2), Some (S754_zero false)).
Proof.
  split.
  - apply (proj1 (rehint_zero_width
                    {| Image.width := 0; Image.height := 100 |}
                    (only_width 50 true) 2 50 eq_refl eq_refl
                    ltac:(vm_compute; reflexivity)));
      reflexivity.
  - apply (proj2 (rehint_zero_width
                    {| Image.width := 0; Image.height := 100 |}
                    (only_height (-50) false) 2 (-50) eq_refl eq_refl
                    ltac:(vm_compute; reflexivity)));
      reflexivity.
Defined.

(** X6: when the aspect ratio can be computed (positive height, width
    below [2^1023]) and exactly one style dimension is set, a scaled
    dimension of magnitude [2^1024] or more makes the call raise
    [OverflowError]: the integer does not fit a double. *)
Theorem rehint_scaled_dimension_overflow
    (image : Image.t) (style : Style.t) (scale v : Z) :
  (0 < Image.height image)%N ->
  Z.of_N (Image.width image) < 2 ^ 1023 ->
  2 ^ 1024 <= Z.abs (v * scale) ->
  Style.width style = Some v /\ Style.height style = None
  \/ Style.width style = None /\ Style.height style = Some v ->
  rehint_imageview (Some image) style scale = Raise OverflowError.
Proof.
  intros Hh Hw Hn Hs.
  destruct (int_truediv_returns (Z.of_N (Image.width image))
              (Z.of_N (Image.height image)) ltac:(lia) ltac:(lia))
    as (ratio & R & _).
  destruct Hs as [[Sw Sh]|[Sw Sh]].
  - rewrite (rehint_only_width image style scale v Sw Sh), R, bind_Return.
    unfold int_div_float. now rewrite of_int_overflow.
  - rewrite (rehint_only_height image style scale v Sw Sh), R, bind_Return.
    unfold int_mul_float. now rewrite of_int_overflow.
Qed.

Lemma rehint_scaled_dimension_overflow_witness :
  rehint_imageview (Some image_200x100) (only_height (2 ^ 1000) true)
    (2 ^ 24)
  = Raise OverflowError.
Proof.
  apply (rehint_scaled_dimension_overflow image_200x100
           (only_height (2 ^ 1000) true) (2 ^ 24) (2 ^ 1000) eq_refl
           ltac:(vm_compute; reflexivity)
           ltac:(vm_compute; discriminate)
           (or_intror (conj eq_refl eq_refl))).
Defined.

(** X7: an image at least [2^1024] times as wide as it is high makes the
    call raise [OverflowError] as soon as one style dimension is unset:
    the aspect ratio does not fit a double. *)
Theorem rehint_ratio_overflow
    (image : Image.t) (style : Style.t) (scale : Z) :
  (0 < Image.height image)%N ->
  2 ^ 1024 * Z.of_N (Image.height image) <= Z.of_N (Image.width image) ->
  Style.width style = None \/ Style.height style = None ->
  rehint_imageview (Some image) style scale = Raise OverflowError.
Proof.
  intros Hh Hw Hs.
  assert (R : int_truediv (Z.of_N (Image.width image))
                (Z.of_N (Image.height image)) = Raise OverflowError)
    by (apply int_truediv_overflow; lia).
  unfold rehint_imageview. rewrite R.
  destruct (Style.width style), (Style.height style);
    try reflexivity; destruct Hs; discriminate.
Qed.

Lemma rehint_ratio_overflow_witness :
  rehint_imageview (Some image_wide) (only_width 10 true) 3
  = Raise OverflowError.
Proof.
  apply (rehint_ratio_overflow image_wide (only_width 10 true) 3 eq_refl
           ltac:(vm_compute; discriminate) (or_intror eq_refl)).
Defined.

(** X8: the call raises nothing but [ZeroDivisionError] and
    [OverflowError]: no NaN ever reaches [int], so [ValueError] is never
    raised, for any image, style and scale. *)
Theorem rehint_raises_only
    (image : option Image.t) (style : Style.t) (scale : Z) (e : pyerr) :
  rehint_imageview image style scale = Raise e ->
  e = ZeroDivisionError \/ e = OverflowError.
Proof.
  intros H. destruct image as [img|]; [|discriminate H].
  destruct (Style.width style) as [w|] eqn:Sw;
    destruct (Style.height style) as [h|] eqn:Sh.
  - rewrite (rehint_both_set img style scale w h Sw Sh) in H. discriminate.
  - rewrite (rehint_only_width img style scale w Sw Sh) in H.
    apply bind_Raise_inv in H as [H|(r & R & H)];
      [now apply int_truediv_raises in H|].
    apply int_truediv_finite in R.
    apply bind_Raise_inv in H as [H|(q & Q & H)].
    + unfold int_div_float in H.
      apply bind_Raise_inv in H as [H|(x & X & H)];
        [right; now apply of_int_raises in H|].
      unfold truediv in H. destruct (is_zero r); [|discriminate].
      injection H as <-. now left.
    + apply bind_Raise_inv in H as [H|(n & _ & H)]; [|discriminate].
      right. apply (to_int_raises q); [|assumption].
      unfold int_div_float in Q. apply bind_inv in Q as (x & X & Q).
      apply of_int_finite in X. unfold truediv in Q.
      destruct (is_zero r) eqn:Z; [discriminate|]. injection Q as <-.
      now apply SFdiv_not_nan.
  - rewrite (rehint_only_height img style scale h Sw Sh) in H.
    apply bind_Raise_inv in H as [H|(r & R & H)];
      [now apply int_truediv_raises in H|].
    apply int_truediv_finite in R.
    apply bind_Raise_inv in H as [H|(p & P & H)].
    + unfold int_mul_float in H.
      apply bind_Raise_inv in H as [H|(x & X & H)];
        [right; now apply of_int_raises in H|discriminate].
    + apply bind_Raise_inv in H as [H|(n & _ & H)]; [|discriminate].
      right. apply (to_int_raises p); [|assumption].
      unfold int_mul_float in P. apply bind_inv in P as (x & X & P).
      apply of_int_finite in X. injection P as <-.
      now apply SFmul_not_nan.
  - rewrite (rehint_no_dims img style scale Sw Sh) in H.
    apply bind_Raise_inv in H as [H|(r & R & H)];
      [now apply int_truediv_raises in H|discriminate].
Qed.

Lemma rehint_raises_only_witness :
  ZeroDivisionError = ZeroDivisionError \/ ZeroDivisionError = OverflowError.
Proof.
  apply (rehint_raises_only (Some image_tall) (only_width 1 false) 1
           ZeroDivisionError ltac:(vm_compute; reflexivity)).
Defined.

(** ** Exact cases *)

Section Exact.

Lemma new_location_zero (n : Z) : new_location n 0 = loc_Exact.
Proof. unfold new_location. destruct (Z.even n); reflexivity. Qed.

(** [a / a] is 1.0. *)
Lemma int_truediv_same (a : Z) : 0 < a -> int_truediv a a = Return one.
Proof.
  intros Ha. unfold int_truediv. positive_operands. simpl xorb.
  unfold SFdiv_core_binary. rewrite fexp_eq.
  replace (Zdigits2 a + 0 - (Zdigits2 a + 0) - 53) with (-53) by lia.
  change (Z.min (Z.max (-53) (-1074)) (0 - 0)) with (-53).
  change (0 - 0 - -53) with 53. cbv iota.
  rewrite Z.shiftl_mul_pow2, div_eucl_div by lia.
  rewrite Z.mul_comm, Z.div_mul, Z.mod_mul, new_location_zero by lia.
  reflexivity.
Qed.

Lemma shr_1_double (z : Z) :
  0 <= z ->
  shr_1 {| shr_m := 2 * z; shr_r := false; shr_s := false |}
  = {| shr_m := z; shr_r := false; shr_s := false |}.
Proof. destruct z; try lia; reflexivity. Qed.

(** Shifting out [p] zero bits loses nothing. *)
Lemma iter_shr_1_exact (p : positive) : forall z,
  0 <= z ->
  iter_pos shr_1 p
    {| shr_m := z * 2 ^ Zpos p; shr_r := false; shr_s := false |}
  = {| shr_m := z; shr_r := false; shr_s := false |}.
Proof.
  induction p as [p IH|p IH|]; intros z Hz; cbn [iter_pos].
  - replace (z * 2 ^ Zpos p~1) with (2 * ((z * 2 ^ Zpos p) * 2 ^ Zpos p)).
    + pose proof (pow2_pos (Zpos p) ltac:(lia)).
      rewrite shr_1_double by nia. rewrite IH by nia. now rewrite IH.
    + rewrite <- Z.mul_assoc, <- Z.pow_add_r by lia.
      replace (Zpos p~1) with (Zpos p + Zpos p + 1) by lia.
      rewrite (Z.pow_add_r 2 _ 1), Z.pow_1_r by lia. ring.
  - replace (z * 2 ^ Zpos p~0) with ((z * 2 ^ Zpos p) * 2 ^ Zpos p).
    + pose proof (pow2_pos (Zpos p) ltac:(lia)).
      rewrite IH by nia. now rewrite IH.
    + rewrite <- Z.mul_assoc, <- Z.pow_add_r by lia.
      do 2 f_equal. lia.
  - replace (z * 2 ^ 1) with (2 * z) by (rewrite Z.pow_1_r; lia).
    now apply shr_1_double.
Qed.

(** A 53-digit mantissa followed by [k] zero bits, known exactly, rounds
    to itself. *)
Lemma binary_round_aux_padded (sx : bool) (m : positive) (ex k : Z) :
  2 ^ 52 <= Zpos m < 2 ^ 53 -> 0 < k -> -1074 <= ex + k <= 971 ->
  binary_round_aux prec emax sx (Zpos m * 2 ^ k) ex loc_Exact
  = S754_finite sx m (ex + k).
Proof.
  intros Bm Hk He. unfold binary_round_aux.
  assert (Hd : Zdigits2 (Zpos m * 2 ^ k) = 53 + k).
  { apply Zdigits2_unique; [|lia].
    replace (53 + k - 1) with (52 + k) by lia.
    rewrite !pow2_split by lia. pose proof (pow2_pos k ltac:(lia)). nia. }
  assert (S1 : shr_fexp prec emax (Zpos m * 2 ^ k) ex loc_Exact
               = ({| shr_m := Zpos m; shr_r := false; shr_s := false |},
                  ex + k)).
  { unfold shr_fexp. rewrite Hd, fexp_eq.
    replace (Z.max (53 + k + ex - 53) (-1074) - ex) with k by lia.
    unfold shr. destruct k as [|p|p]; try lia.
    cbn [shr_record_of_loc]. now rewrite iter_shr_1_exact by lia. }
  rewrite S1.
  cbn [shr_m loc_of_shr_record round_nearest_even].
  rewrite shr_fexp_id by (try apply Zdigits2_unique; lia).
  cbn [shr_record_of_loc shr_m].
  replace (ex + k <=? emax - prec) with true
    by (symmetry; apply Z.leb_le; unfold emax, prec; lia).
  reflexivity.
Qed.

(** Dividing a normal double by 1.0 changes nothing. *)
Lemma SFdiv_one (s : bool) (m : positive) (e : Z) :
  2 ^ 52 <= Zpos m < 2 ^ 53 -> -1073 <= e <= 971 ->
  SFdiv prec emax (S754_finite s m e) one = S754_finite s m e.
Proof.
  intros Bm He. unfold SFdiv, SFdiv_core_binary, one.
  rewrite (Zdigits2_unique (Zpos m) 53) by lia.
  change (Zdigits2 (Zpos 4503599627370496)) with 53.
  rewrite fexp_eq.
  replace (Z.min (Z.max (53 + e - (53 + -52) - 53) (-1074)) (e - -52))
    with (e - 1) by lia.
  replace (e - -52 - (e - 1)) with 53 by lia.
  rewrite Z.shiftl_mul_pow2, div_eucl_div by lia.
  replace (Zpos m * 2 ^ 53) with (Zpos m * 2 ^ 1 * Zpos 4503599627370496)
    by (change (Zpos 4503599627370496) with (2 ^ 52);
        rewrite <- Z.mul_assoc, <- Z.pow_add_r by lia; reflexivity).
  rewrite Z.div_mul, Z.mod_mul, new_location_zero, xorb_false_r by lia.
  rewrite binary_round_aux_padded by lia.
  f_equal. lia.
Qed.

(** Multiplying a normal double by 1.0 changes nothing. *)
Lemma SFmul_one (s : bool) (m : positive) (e : Z) :
  2 ^ 52 <= Zpos m < 2 ^ 53 -> -1074 <= e <= 971 ->
  SFmul prec emax (S754_finite s m e) one = S754_finite s m e.
Proof.
  intros Bm He. unfold SFmul, one.
  rewrite Pos2Z.inj_mul, xorb_false_r.
  change (Zpos 4503599627370496) with (2 ^ 52).
  rewrite binary_round_aux_padded by lia.
  f_equal. lia.
Qed.

(** Below [2^53] an [int] survives the trip through [float]. *)
Lemma of_int_to_int (n : Z) :
  Z.abs n < 2 ^ 53 ->
  exists x,
    of_int n = Return x /\ to_int x = Return n
    /\ (x = S754_zero false
        \/ exists m e, x = S754_finite (n <? 0) m e
                       /\ 2 ^ 52 <= Zpos m < 2 ^ 53 /\ -52 <= e <= 0).
Proof.
  intros Hn. unfold of_int.
  destruct n as [|p|p]; [eexists; repeat split; auto| |];
    simpl binary_normalize;
    [destruct (binary_round_exact false p Hn) as (m & e & R & Bm & Be & V)
    |destruct (binary_round_exact true p Hn) as (m & e & R & Bm & Be & V)];
    rewrite R; eexists; (split; [reflexivity|]);
    (split; [|right; exists m, e; repeat split; lia]);
    simpl to_int; rewrite Z.shiftl_div_pow2, V, Z.div_mul by
      (try lia; pose proof (pow2_pos (- e) ltac:(lia)); lia);
    reflexivity.
Qed.

End Exact.

(** X9: a square image gets a square hint, exactly: when the image's
    width equals its positive height (of any size) and exactly one style
    dimension [v] is set, with [v * scale] below [2^53] in magnitude, the
    ratio is 1.0 and the derived axis is [v * scale] as well
    ([at_least 0] under flex); no rounding is lost. *)
Theorem rehint_square_image
    (image : Image.t) (style : Style.t) (scale v : Z) :
  Image.width image = Image.height image -> (0 < Image.height image)%N ->
  Z.abs (v * scale) < 2 ^ 53 ->
  (Style.width style = Some v -> Style.height style = None ->
   rehint_imageview (Some image) style scale
   = Return (Int (v * scale),
             if Style.flex style then at_least 0 else Int (v * scale),
             Some one))
  /\ (Style.width style = None -> Style.height style = Some v ->
      rehint_imageview (Some image) style scale
      = Return (if Style.flex style then at_least 0 else Int (v * scale),
                Int (v * scale),
                Some one)).
Proof.
  intros Hsq Hh Hn.
  assert (R : int_truediv (Z.of_N (Image.width image))
                (Z.of_N (Image.height image)) = Return one)
    by (rewrite Hsq; apply int_truediv_same; lia).
  destruct (of_int_to_int (v * scale) Hn) as (x & X & T & Hx).
  split; intros Sw Sh.
  - rewrite (rehint_only_width image style scale v Sw Sh), R, bind_Return.
    unfold int_div_float. rewrite X, bind_Return. unfold truediv.
    change (is_zero one) with false. cbv iota. rewrite bind_Return.
    destruct Hx as [->|(m & e & -> & Bm & Be)].
    + change (SFdiv prec emax (S754_zero false) one) with (S754_zero false).
      rewrite T. reflexivity.
    + rewrite SFdiv_one, T by lia. reflexivity.
  - rewrite (rehint_only_height image style scale v Sw Sh), R, bind_Return.
    unfold int_mul_float. rewrite X, !bind_Return. unfold mul.
    destruct Hx as [->|(m & e & -> & Bm & Be)].
    + change (SFmul prec emax (S754_zero false) one) with (S754_zero false).
      rewrite T. reflexivity.
    + rewrite SFmul_one, T by lia. reflexivity.
Qed.

Lemma rehint_square_image_witness :
  rehint_imageview (Some {| Image.width := 641; Image.height := 641 |})
    (only_width 97 false) 3
  = Return (Int (97 * 3), Int (97 * 3), Some one)
  /\ rehint_imageview (Some {| Image.width := 641; Image.height := 641 |})
       (only_height 97 false) 3
     = Return (Int (97 * 3), Int (97 * 3), Some one).
Proof.
  split.
  - apply (proj1 (rehint_square_image
                    {| Image.width := 641; Image.height := 641 |}
                    (only_width 97 false) 3 97 eq_refl eq_refl
                    ltac:(vm_compute; reflexivity)));
      reflexivity.
  - apply (proj2 (rehint_square_image
                    {| Image.width := 641; Image.height := 641 |}
                    (only_height 97 false) 3 97 eq_refl eq_refl
                    ltac:(vm_compute; reflexivity)));
      reflexivity.
Defined.

(** Beyond [2^53] the square is lost: the scaled width is not a double. *)
Example rehint_square_image_beyond :
  rehint_imageview (Some {| Image.width := 7; Image.height := 7 |})
    (only_width (2 ^ 53 + 1) false) 1
  = Return (Int (2 ^ 53 + 1), Int (2 ^ 53), Some one).
Proof. vm_compute. reflexivity. Qed.

(** ** Aspect ratio with an explicit height *)

Section Products.

(** The product of two positive normal doubles is within a relative error
    [unit_roundoff] of the exact product. *)
Lemma SFmul_accurate (mx my : positive) (ex ey : Z) :
  2 ^ 52 <= Zpos mx < 2 ^ 53 ->
  2 ^ 52 <= Zpos my < 2 ^ 53 ->
  -1126 <= ex + ey <= 917 ->
  exists (m : positive) (e : Z),
    SFmul prec emax (S754_finite false mx ex) (S754_finite false my ey)
    = S754_finite false m e
    /\ (F2Q (S754_finite false m e) * (1 - unit_roundoff)
        <= F2Q (S754_finite false mx ex) * F2Q (S754_finite false my ey))%Q
    /\ (F2Q (S754_finite false mx ex) * F2Q (S754_finite false my ey)
        <= F2Q (S754_finite false m e) * (1 + unit_roundoff))%Q.
Proof.
  intros Bx By He. unfold SFmul.
  set (n := Zpos (mx * my)).
  assert (Hn : n = Zpos mx * Zpos my) by (unfold n; lia).
  assert (Bn : 2 ^ 104 <= n < 2 ^ 106).
  { replace 104 with (52 + 52) by lia. replace 106 with (53 + 53) by lia.
    rewrite !pow2_split by lia. nia. }
  assert (Dn : 105 <= Zdigits2 n <= 106).
  { split; [apply Zdigits2_ge|apply Zdigits2_le]; simpl; lia. }
  destruct (binary_round_aux_normal (xorb false false) n (ex + ey) loc_Exact)
    as (m & e & R & Bm & Be & V1 & V2); [lia|lia|lia|].
  rewrite R. exists m, e. split; [reflexivity|].
  simpl F2Q.
  rewrite Zle_Qle in V1, V2.
  rewrite Hn in V1, V2.
  rewrite !inject_Z_mult, !Qpow2_inject in V1, V2 by lia.
  rewrite !inject_Z_plus, !inject_Z_mult in V2.
  rewrite inject_Z_pred in V1. change (inject_Z 1) with 1%Q in V2.
  pose proof (Qpow2_pos (ex + ey)) as PS.
  assert (E1 : (2 ^ (e - (ex + ey)) * 2 ^ (ex + ey) == 2 ^ e)%Q).
  { rewrite <- Qpow2_add. f_equiv. lia. }
  pose proof (Qpow2_add ex ey) as E2.
  pose proof (Qpow2_pos e) as PE.
  set (T := (2 ^ (e - (ex + ey)))%Q) in *.
  set (S := (2 ^ (ex + ey))%Q) in *.
  set (U := (2 ^ e)%Q) in *.
  set (X := (2 ^ ex)%Q) in *. set (Y := (2 ^ ey)%Q) in *.
  set (M := inject_Z (Zpos m)) in *.
  set (Mx := inject_Z (Zpos mx)) in *. set (My := inject_Z (Zpos my)) in *.
  assert (L : ((M - 1) * T * S <= Mx * My * S)%Q)
    by (apply Qmult_le_r; assumption).
  assert (L' : (Mx * My * S <= (M + 1) * T * S)%Q)
    by (apply Qmult_le_r; [assumption|lra]).
  assert (EL : ((M - 1) * T * S == (M - 1) * U * 1)%Q)
    by (rewrite <- E1; ring).
  assert (EL' : ((M + 1) * T * S == (M + 1) * U * 1)%Q)
    by (rewrite <- E1; ring).
  assert (ER : (Mx * My * S == Mx * X * (My * Y))%Q) by (rewrite E2; ring).
  destruct (relative_error m U (Mx * X * (My * Y)) 1) as [G1 G2];
    try lia; try assumption; try reflexivity; fold M; try lra.
  fold M in G1, G2. split; lra.
Qed.

(** A rounding, a product with another rounding, and a truncation:
    [H = int(g)], where [g] is the rounded [N * r] and [r] the rounded
    [A / B]. *)
Lemma rounded_product (A B N H r g : Q) :
  (0 < A -> 0 < B -> 0 <= N -> 0 < r -> 0 < g ->
   r * (1 - unit_roundoff) * B <= A -> A <= r * (1 + unit_roundoff) * B ->
   g * (1 - unit_roundoff) <= N * r -> N * r <= g * (1 + unit_roundoff) ->
   H <= g -> g < H + 1 ->
   H * B * ((1 - unit_roundoff) * (1 - unit_roundoff)) <= N * A
   /\ N * A < (H + 1) * B * ((1 + unit_roundoff) * (1 + unit_roundoff)))%Q.
Proof.
  intros HA HB HN Hr Hg F1 F2 F3 F4 F5 F6.
  destruct unit_roundoff_bounds as [U0 U1].
  set (u := unit_roundoff) in *.
  assert (Pm : (0 < 1 - u)%Q) by lra.
  assert (Pp : (0 < 1 + u)%Q) by lra.
  assert (PBm : (0 < B * (1 - u))%Q) by (apply Qmult_lt_0_compat; assumption).
  assert (PBp : (0 < (1 + u) * B)%Q) by (apply Qmult_lt_0_compat; assumption).
  assert (PBmm : (0 < (1 - u) * (B * (1 - u)))%Q)
    by (apply Qmult_lt_0_compat; assumption).
  assert (PBpp : (0 < (1 + u) * ((1 + u) * B))%Q)
    by (apply Qmult_lt_0_compat; assumption).
  split.
  - assert (S1 : (H * ((1 - u) * (B * (1 - u)))
                  <= g * ((1 - u) * (B * (1 - u))))%Q)
      by (apply Qmult_le_compat_r; [assumption|lra]).
    assert (S2 : (g * (1 - u) * (B * (1 - u)) <= N * r * (B * (1 - u)))%Q)
      by (apply Qmult_le_compat_r; [assumption|lra]).
    assert (S3 : (r * (1 - u) * B * N <= A * N)%Q)
      by (apply Qmult_le_compat_r; assumption).
    lra.
  - assert (S1 : (A * N <= r * (1 + u) * B * N)%Q)
      by (apply Qmult_le_compat_r; assumption).
    assert (S2 : (N * r * ((1 + u) * B) <= g * (1 + u) * ((1 + u) * B))%Q)
      by (apply Qmult_le_compat_r; [assumption|lra]).
    assert (S3 : (g * ((1 + u) * ((1 + u) * B))
                  < (H + 1) * ((1 + u) * ((1 + u) * B)))%Q)
      by (apply Qmult_lt_compat_r; assumption).
    lra.
Qed.

End Products.

(** X10: with only [style.height] set and no flex, for an image and a
    scaled height that are positive (the scaled height may be 0) and
    below [pixel_limit], the call returns integers [width_out] and
    [height_out = style.height * scale] with
    [0 <= height_out * image.width - width_out * image.height
       <= image.height]:
    the hinted width is the exact width
    [height_out * image.width / image.height] rounded down, or one less. *)
Theorem rehint_keeps_ratio_height
    (image : Image.t) (style : Style.t) (scale v : Z) :
  let iw := Z.of_N (Image.width image) in
  let ih := Z.of_N (Image.height image) in
  0 < iw < pixel_limit -> 0 < ih < pixel_limit ->
  0 <= v * scale < pixel_limit ->
  Style.width style = None -> Style.height style = Some v ->
  Style.flex style = false ->
  exists width_out ratio,
    rehint_imageview (Some image) style scale
    = Return (Int width_out, Int (v * scale), Some ratio)
    /\ 0 <= (v * scale) * iw - width_out * ih <= ih.
Proof.
  intros iw ih Hw Hh Hn Sw Sh Sf.
  rewrite (rehint_only_height image style scale v Sw Sh), Sf. fold iw ih.
  set (n := v * scale) in *.
  pose proof (digits_below_pixel_limit iw Hw) as Dw.
  pose proof (digits_below_pixel_limit ih Hh) as Dh.
  unfold pixel_limit in *.
  destruct (int_truediv_accurate iw ih ltac:(lia) ltac:(lia) ltac:(lia))
    as (mr & er & R & Bmr & Ber & R1 & R2).
  rewrite R, bind_Return.
  destruct (Z.eq_dec n 0) as [Hz|Hnz].
  - rewrite Hz. exists 0, (S754_finite false mr er).
    split; [reflexivity|]. lia.
  - destruct (of_int_exact n ltac:(lia)) as (mn & en & Cn & Bmn & Ben & Vn).
    unfold int_mul_float. rewrite Cn, !bind_Return. unfold mul.
    destruct (SFmul_accurate mn mr en er Bmn Bmr ltac:(lia))
      as (mg & eg & G & G1 & G2).
    rewrite G.
    destruct (to_int_bounds mg eg) as (h & T & T1 & T2).
    rewrite T, bind_Return.
    exists h, (S754_finite false mr er). split; [reflexivity|].
    pose proof (F2Q_pos mr er) as Pr. pose proof (F2Q_pos mg eg) as Pg.
    rewrite Vn in G1, G2.
    assert (PA : (0 < inject_Z iw)%Q) by (rewrite <- (Zlt_Qlt 0); lia).
    assert (PB : (0 < inject_Z ih)%Q) by (rewrite <- (Zlt_Qlt 0); lia).
    assert (PN : (0 <= inject_Z n)%Q) by (rewrite <- (Zle_Qle 0); lia).
    destruct (rounded_product (inject_Z iw) (inject_Z ih) (inject_Z n)
                (inject_Z h) _ _ PA PB PN Pr Pg R1 R2 G1 G2 T1 T2)
      as [P1 P2].
    unfold unit_roundoff in P1, P2.
    change (2 ^ 52)%positive with 4503599627370496%positive in P1, P2.
    assert (Z1 : h * ih * ((2 ^ 52 - 1) * (2 ^ 52 - 1)) <= n * iw * 2 ^ 104).
    { rewrite Zle_Qle, !inject_Z_mult.
      change (inject_Z (2 ^ 52 - 1)) with (4503599627370495 # 1)%Q.
      change (inject_Z (2 ^ 104))
        with (20282409603651670423947251286016 # 1)%Q.
      lra. }
    assert (Z2 : n * iw * 2 ^ 104
                 < (h + 1) * ih * ((2 ^ 52 + 1) * (2 ^ 52 + 1))).
    { rewrite Zlt_Qlt, !inject_Z_mult, inject_Z_plus.
      change (inject_Z (2 ^ 52 + 1)) with (4503599627370497 # 1)%Q.
      change (inject_Z (2 ^ 104))
        with (20282409603651670423947251286016 # 1)%Q.
      change (inject_Z 1) with 1%Q.
      lra. }
    assert (Y : 0 < n * iw < 2 ^ 50) by nia.
    nia.
Qed.

Lemma rehint_keeps_ratio_height_witness :
  exists width_out ratio,
    rehint_imageview (Some {| Image.width := 1; Image.height := 49 |})
      (only_height 49 false) 1
    = Return (Int width_out, Int (49 * 1), Some ratio)
    /\ 0 <= (49 * 1) * Z.of_N 1 - width_out * Z.of_N 49 <= Z.of_N 49.
Proof.
  apply (rehint_keeps_ratio_height
           {| Image.width := 1; Image.height := 49 |}
           (only_height 49 false) 1 49);
    vm_compute; try split; try reflexivity; discriminate.
Defined.

(** The lower end is reached here too: for an image 1 x 49 and height 49
    the exact width is 1 and the hint is 0, because [1 / 49] rounds down
    and [49 * (1 / 49)] falls just short of 1. *)
Example rehint_width_one_less :
  exists ratio,
    rehint_imageview (Some {| Image.width := 1; Image.height := 49 |})
      (only_height 49 false) 1
    = Return (Int 0, Int 49, Some ratio).
Proof. eexists. vm_compute. reflexivity. Qed.

(** * Properties of the [image] property *)

Section ImageAssignments.

Import ListNotations.
Import ImageProperty.

Context {Source Error Format Formatted : Type}.
Variable Image_new : Source -> Error + Image.t.
Variable as_format : Image.t -> Format -> Formatted.

Lemma displayed_app (calls : list call) (img : option Image.t) :
  displayed {| ImageView._image := img;
               ImageView.base := calls ++ [impl_set_image img; refresh] |}
  = Some img.
Proof. unfold displayed. simpl. now rewrite fold_left_app. Qed.

(** A successful assignment hands the backend what the getter returns. *)
Lemma set_image_displayed (self self' : view) (image : content Source) :
  set_image Image_new self image = inr self' ->
  displayed self' = Some (ImageView.image self').
Proof.
  unfold set_image. intros H.
  destruct image as [img| |src]; [| |destruct (Image_new src) as [e|img]];
    try discriminate H; injection H as <-; apply displayed_app.
Qed.

End ImageAssignments.

(** X11: after the constructor and any sequence of assignments to
    [image], those that raise included (they change nothing), the image
    the backend was last handed through [_impl.set_image] is the one the
    [image] getter returns. *)
Theorem image_displayed_after_assignments
    (Source Error : Type) (Image_new : Source -> Error + Image.t)
    (image : ImageProperty.content Source)
    (images : list (ImageProperty.content Source))
    (self : ImageProperty.view) :
  ImageProperty.init Image_new image = inr self ->
  ImageProperty.displayed (ImageProperty.assign_all Image_new self images)
  = Some (ImageView.image (ImageProperty.assign_all Image_new self images)).
Proof.
  intros H. apply set_image_displayed in H. revert self H.
  induction images as [|c cs IH]; intros self H; [exact H|].
  unfold ImageProperty.assign_all in *. simpl. apply IH.
  destruct (ImageProperty.set_image Image_new self c) as [e|self'] eqn:E;
    [exact H|].
  now apply (set_image_displayed Image_new self self' c).
Qed.

Lemma image_displayed_after_assignments_witness :
  ImageProperty.displayed
    (ImageProperty.assign_all (fun _ : unit => inl tt)
       {| ImageView._image := None;
          ImageView.base :=
            (ImageProperty.widget_init
             :: ImageProperty.impl_set_image None
             :: ImageProperty.refresh :: nil) |}
       (ImageProperty.image_object image_200x100
        :: ImageProperty.other tt :: nil))
  = Some
      (ImageView.image
         (ImageProperty.assign_all (fun _ : unit => inl tt)
            {| ImageView._image := None;
               ImageView.base :=
                 (ImageProperty.widget_init
                  :: ImageProperty.impl_set_image None
                  :: ImageProperty.refresh :: nil) |}
            (ImageProperty.image_object image_200x100
             :: ImageProperty.other tt :: nil))).
Proof.
  apply (image_displayed_after_assignments unit unit (fun _ => inl tt)
           ImageProperty.no_image).
  reflexivity.
Defined.

(** X12: [as_image] after an assignment: once [None] has been assigned
    (or the view constructed without an image), [as_image] fails with
    [AttributeError] for every format; once an image object has been
    assigned, it is that image's [as_format]. *)
Theorem as_image_after_assignment
    (Source Error Format Formatted : Type)
    (Image_new : Source -> Error + Image.t)
    (as_format : Image.t -> Format -> Formatted)
    (self : ImageProperty.view) (format : Format) :
  (exists self',
      ImageProperty.set_image Image_new self ImageProperty.no_image
      = inr self'
      /\ ImageProperty.as_image as_format self' format
         = ImageProperty.AttributeError)
  /\ (exists self',
         ImageProperty.init Image_new ImageProperty.no_image = inr self'
         /\ ImageProperty.as_image as_format self' format
            = ImageProperty.AttributeError)
  /\ (forall img, exists self',
         ImageProperty.set_image Image_new self
           (ImageProperty.image_object img) = inr self'
         /\ ImageProperty.as_image as_format self' format
            = ImageProperty.formatted (as_format img format)).
Proof.
  split; [|split]; [| |intros img]; eexists; split; reflexivity.
Qed.
